(** * Hierarchical reversible synthesis of logic networks (caterpillar)

    A shallow embedding of
    - [lib/caterpillar/caterpillar/mapping_strategies.hpp]: the pebbling,
      Bennett and Bennett in-place mapping strategies, and
    - the synthesis driver [logic_network_synthesis_impl] with its ancilla
      pool and node expanders,
    followed by the properties of the step streams, of the ancilla pool and
    of the emitted gate sequences. *)

From stdpp Require Import base numbers option list gmap strings.

Local Open Scope N_scope.

(** ** Machine integers *)

(** [uint32_t] arithmetic is arithmetic on [N] modulo [2^32]. *)
Definition uint32_max : N := 2 ^ 32.
Definition to_uint32 (z : Z) : N := Z.to_N (z mod 2 ^ 32)%Z.
Definition wrap32 (n : N) : N := n mod uint32_max.

(** Conversion of an unsigned index to [int] (two's complement, 32 bits). *)
Definition to_int32 (n : N) : Z :=
  let r := (Z.of_N n mod 2 ^ 32)%Z in
  if (r <? 2 ^ 31)%Z then r else (r - 2 ^ 32)%Z.

(** ** Logic networks: the capability set used by the templates *)

Definition node := N.
Definition qubit := N.

(** A fan-in or output is a signed edge. *)
Record signal := Signal { get_node : node; is_complemented : bool }.

(** Nodes are dense indices in the networks the templates are used with. *)
Definition node_to_index (n : node) : N := n.
Definition index_to_node (i : N) : node := i.

(** [kitty::dynamic_truth_table]: number of variables and the function's
    bits, least significant first. *)
Record truth_table := TruthTable { num_vars : nat; tt_bits : list bool }.

Fixpoint pos_parity (p : positive) : bool :=
  match p with
  | xH => true
  | xO p' => pos_parity p'
  | xI p' => negb (pos_parity p')
  end.

Definition parity_of (x : N) : bool :=
  match x with N0 => false | Npos p => pos_parity p end.

(** Modelled from the spec: [tt.construct()] followed by
    [kitty::create_parity] (kitty is not among the sources) is "the parity
    function over its support", the XOR of all variables of [tt]. *)
Definition create_parity (tt : truth_table) : truth_table :=
  TruthTable (num_vars tt)
             (map (fun i => parity_of (N.of_nat i)) (seq 0 (2 ^ num_vars tt)%nat)).

Definition tt_eqb (a b : truth_table) : bool :=
  bool_decide (num_vars a = num_vars b) && bool_decide (tt_bits a = tt_bits b).

(** The operations of a [LogicNetwork] that the strategies and the driver
    call.  A [has_*] flag is the compile-time trait of the same name: the
    branch guarded by [if constexpr ( mt::has_is_and_v<LogicNetwork> )] only
    exists when the flag is set.  [topo_foreach_node] is the node sequence of
    [mt::topo_view{ntk}.foreach_node]. *)
Record LogicNetwork := {
  foreach_node : list node;
  topo_foreach_node : list node;
  foreach_pi : list node;
  foreach_po : list signal;
  foreach_fanin : node -> list signal;
  is_constant : node -> bool;
  is_pi : node -> bool;
  get_constant : bool -> signal;
  constant_value : node -> bool;
  fanout_size : node -> N;
  has_is_and : bool;
  is_and : node -> bool;
  has_is_or : bool;
  is_or : node -> bool;
  has_is_xor : bool;
  is_xor : node -> bool;
  has_is_xor3 : bool;
  is_xor3 : node -> bool;
  has_is_maj : bool;
  is_maj : node -> bool;
  has_node_function : bool;
  node_function : node -> truth_table
}.

(** ** Quantum networks: the gate sink *)

Inductive gate_kinds_t := pauli_x | cx | mcx.

Record gate := Gate {
  gate_kind : gate_kinds_t;
  gate_controls : list qubit;
  gate_targets : list qubit
}.

(** The three [add_gate] overloads the driver uses. *)
Definition X (t : qubit) : gate := Gate pauli_x [] [t].
Definition CX (c t : qubit) : gate := Gate cx [c] [t].
Definition MCX (cs ts : list qubit) : gate := Gate mcx cs ts.

(** The two things the driver observes of a [QuantumNetwork]: how many
    qubits it has and the gates added so far, oldest first.  [add_qubit]
    adds one qubit, [add_gate] appends one gate. *)
Record QuantumNetwork := QNet { num_qubits : N; gates : list gate }.

(** ** Actions and steps *)

Inductive mapping_strategy_action :=
| compute_action
| uncompute_action
| compute_inplace_action (target_index : N)
| uncompute_inplace_action (target_index : N).

Definition step : Type := node * mapping_strategy_action.

#[global] Instance gate_kinds_eq_dec : EqDecision gate_kinds_t.
Proof. solve_decision. Defined.
#[global] Instance gate_eq_dec : EqDecision gate.
Proof. solve_decision. Defined.
#[global] Instance action_eq_dec : EqDecision mapping_strategy_action.
Proof. solve_decision. Defined.
#[global] Instance signal_eq_dec : EqDecision signal.
Proof. solve_decision. Defined.

(** ** Parameters and statistics *)

Record logic_network_synthesis_params := {
  pebble_limit : N;
  verbose : bool
}.

Record logic_network_synthesis_stats := {
  required_ancillae : N
}.

(** ** Mapping strategies *)

(** [steps.insert( it, x )] on a [std::vector]: the element is placed before
    position [it]; the returned iterator designates the new element. *)
Definition vec_insert {A} (v : list A) (it : nat) (x : A) : list A * nat :=
  (take it v ++ x :: drop it v, it).

(** The set of primary-output drivers collected by [foreach_po]. *)
Definition po_drivers (ntk : LogicNetwork) : gset node :=
  foldl (fun drivers f => {[ get_node f ]} ∪ drivers) ∅ (foreach_po ntk).

(** What every strategy offers to the driver.  [set_pebble_limit] is [None]
    for a strategy without that member ([has_set_pebble_limit_v] false). *)
Class MappingStrategy (T : Type) := {
  construct : LogicNetwork -> T;
  set_pebble_limit : option (N -> T -> T);
  foreach_step : T -> list step
}.

Module Pebbling.

Record t := Strategy { steps : list step; limit_ : N }.

Section Solver.
(** Modelled from the spec: [pebble_solver_man] of [sat.hpp] is not among
    the sources.  Given a network and a pebble limit, its [get_steps]
    returns an ordered list of (node, action) pairs. *)
Variable pebble_solver_man : LogicNetwork -> N -> list step.

(** The constructor; [pebbles] is its second, defaulted argument. *)
Definition pebbling_mapping_strategy (ntk : LogicNetwork) (pebbles : N) : t :=
  let man := pebble_solver_man ntk pebbles in
  {| steps := man; limit_ := 50 |}.

Definition set_pebble_limit (limit : N) (s : t) : t :=
  {| steps := steps s; limit_ := limit |}.

#[local] Instance strategy : MappingStrategy t := {
  construct ntk := pebbling_mapping_strategy ntk 0;
  set_pebble_limit := Some set_pebble_limit;
  foreach_step := steps
}.
End Solver.

End Pebbling.

Module Bennett.

(** The body of the [foreach_node] callback; the state is the vector with
    the insertion iterator. *)
Definition visit (ntk : LogicNetwork) (drivers : gset node) (n : node)
    (st : list step * nat) : list step * nat :=
  let '(steps, it) := st in
  if is_constant ntk n || is_pi ntk n then (steps, it)
  else
    let '(steps, it) := vec_insert steps it (n, compute_action) in
    let it := S it in
    if bool_decide (n ∈ drivers) then (steps, it)
    else vec_insert steps it (n, uncompute_action).

Definition bennett_mapping_strategy (ntk : LogicNetwork) : list step :=
  let drivers := po_drivers ntk in
  fst (foldl (fun st n => visit ntk drivers n st) ([], 0%nat)
             (topo_foreach_node ntk)).

#[local] Instance strategy : MappingStrategy (list step) := {
  construct := bennett_mapping_strategy;
  set_pebble_limit := None;
  foreach_step := id
}.

End Bennett.

Module BennettInplace.

(** Modelled from the spec: the value field of the nodes, which the network
    keeps (its code is not among the sources): a [uint32_t] counter per
    node, "used by in-place strategy for reference counting". *)
Definition values := node -> N.

(** Modelled from the spec: [clear_values] of the network resets every
    counter. *)
Definition clear_values : values := fun _ => 0.

(** Modelled from the spec: [set_value] of the network stores a counter. *)
Definition set_value (n : node) (v : N) (vs : values) : values :=
  fun m => if N.eqb m n then wrap32 v else vs m.

(** Modelled from the spec: [decr_value] of the network decrements the
    counter of a node, wrapping around as a [uint32_t], and returns the new
    value ("decrement f's counter", "whose counter reaches zero"). *)
Definition decr_value (n : node) (vs : values) : N * values :=
  let v := wrap32 (vs n + (uint32_max - 1)) in
  (v, set_value n v vs).

(** The body of the [foreach_fanin] callback: decrement the reference
    count and mark a potential target. *)
Definition visit_fanin (f : signal) (st : values * Z) : values * Z :=
  let '(vs, target) := st in
  let '(v, vs) := decr_value (get_node f) vs in
  if v =? 0 then
    if (target =? -1)%Z
    then (vs, to_int32 (node_to_index (get_node f)))
    else (vs, target)
  else (vs, target).

Definition insert_pair (n : node) (a b : mapping_strategy_action)
    (steps : list step) (it : nat) : list step * nat :=
  let '(steps, it) := vec_insert steps it (n, a) in
  let it := S it in
  vec_insert steps it (n, b).

(** The body of the second [foreach_node] callback. *)
Definition visit (ntk : LogicNetwork) (drivers : gset node) (n : node)
    (st : values * (list step * nat)) : values * (list step * nat) :=
  let '(vs, (steps, it)) := st in
  if is_constant ntk n || is_pi ntk n then st
  else
    let '(vs, target) :=
      foldl (fun acc f => visit_fanin f acc) (vs, (-1)%Z) (foreach_fanin ntk n) in
    let inplace :=
      (vs, insert_pair n (compute_inplace_action (to_uint32 target))
                       (uncompute_inplace_action (to_uint32 target)) steps it) in
    let outofplace :=
      let '(steps, it) := vec_insert steps it (n, compute_action) in
      let it := S it in
      if bool_decide (n ∈ drivers) then (vs, (steps, it))
      else (vs, vec_insert steps it (n, uncompute_action)) in
    if negb (target =? -1)%Z && negb (bool_decide (n ∈ drivers)) then
      if has_is_xor ntk && is_xor ntk n then inplace
      else if has_is_xor3 ntk && is_xor3 ntk n then inplace
      else outofplace
    else outofplace.

Definition init_values (ntk : LogicNetwork) : values :=
  foldl (fun vs n => set_value n (fanout_size ntk n) vs) clear_values
        (foreach_node ntk).

Definition bennett_inplace_mapping_strategy (ntk : LogicNetwork) : list step :=
  let drivers := po_drivers ntk in
  let vs := init_values ntk in
  fst (snd (foldl (fun st n => visit ntk drivers n st) (vs, ([], 0%nat))
                  (foreach_node ntk))).

#[local] Instance strategy : MappingStrategy (list step) := {
  construct := bennett_inplace_mapping_strategy;
  set_pebble_limit := None;
  foreach_step := id
}.

End BennettInplace.

(** ** The synthesis driver *)

(** The mutable members of [logic_network_synthesis_impl]: the quantum
    network, the node-to-qubit map (a [node_map], total and
    default-initialised), the stack of free ancillae (top first), the
    statistics counter and what was written to [std::cerr].  The verbose
    trace on [std::cout] and the stopwatch do not influence any of these and
    are left out. *)
Record impl_state := State {
  qnet : QuantumNetwork;
  node_to_qubit : node -> qubit;
  free_ancillae : list qubit;
  st_required_ancillae : N;
  cerr : list string
}.

(** Member functions run in a state monad; [None] is a failed [assert]. *)
Definition M (A : Type) : Type := impl_state -> option (A * impl_state).

#[global] Instance M_ret : MRet M := fun A a s => Some (a, s).
#[global] Instance M_bind : MBind M := fun A B f m s =>
  match m s with
  | Some (a, s') => f a s'
  | None => None
  end.

Definition foreach {A} (l : list A) (body : A -> M unit) : M unit :=
  foldr (fun a k => body a ;; k) (mret tt) l.

Definition when (b : bool) (m : M unit) : M unit :=
  if b then m else mret tt.

Definition assert (b : bool) : M unit :=
  fun s => if b then Some (tt, s) else None.

(** *** Primitive accesses *)

Definition qnet_num_qubits : M N :=
  fun s => Some (num_qubits (qnet s), s).

Definition add_qubit : M unit :=
  fun s => Some (tt, State (QNet (num_qubits (qnet s) + 1) (gates (qnet s)))
                           (node_to_qubit s) (free_ancillae s)
                           (st_required_ancillae s) (cerr s)).

Definition add_gate (g : gate) : M unit :=
  fun s => Some (tt, State (QNet (num_qubits (qnet s)) (gates (qnet s) ++ [g]))
                           (node_to_qubit s) (free_ancillae s)
                           (st_required_ancillae s) (cerr s)).

Definition mapped (n : node) : M qubit :=
  fun s => Some (node_to_qubit s n, s).

Definition map_node (n : node) (q : qubit) : M unit :=
  fun s => Some (tt, State (qnet s)
                           (fun m => if m =? n then q else node_to_qubit s m)
                           (free_ancillae s) (st_required_ancillae s) (cerr s)).

Definition cerr_put (msg : string) : M unit :=
  fun s => Some (tt, State (qnet s) (node_to_qubit s) (free_ancillae s)
                           (st_required_ancillae s) (cerr s ++ [msg])).

(** The diagnostic of the in-place expanders, with its line feed. *)
Definition inplace_mismatch : string :=
  "[e] target does not match any control in in-place"
  +:+ String (Ascii.ascii_of_nat 10) EmptyString.

Section Impl.

Variable ntk : LogicNetwork.
(** The single-target gate synthesis callback: the gates it adds for a
    function and a qubit map whose last entry is the target. *)
Variable stg_fn : truth_table -> list qubit -> list gate.
Variable ps : logic_network_synthesis_params.

Definition prepare_inputs : M unit :=
  foreach (foreach_pi ntk) (fun n =>
    q ← qnet_num_qubits;
    map_node n q;;
    add_qubit).

Definition prepare_constant (value : bool) : M unit :=
  let f := get_constant ntk value in
  let n := get_node f in
  if fanout_size ntk n =? 0 then mret tt
  else
    let v := xorb (constant_value ntk n) (is_complemented f) in
    q ← qnet_num_qubits;
    map_node n q;;
    add_qubit;;
    q ← mapped n;
    when v (add_gate (X q)).

Definition request_ancilla : M qubit :=
  fun s =>
    match free_ancillae s with
    | [] =>
        let r := num_qubits (qnet s) in
        Some (r, State (QNet (num_qubits (qnet s) + 1) (gates (qnet s)))
                       (node_to_qubit s) []
                       (wrap32 (st_required_ancillae s + 1)) (cerr s))
    | r :: rest =>
        Some (r, State (qnet s) (node_to_qubit s) rest
                       (st_required_ancillae s) (cerr s))
    end.

Definition release_ancilla (q : qubit) : M unit :=
  fun s => Some (tt, State (qnet s) (node_to_qubit s) (q :: free_ancillae s)
                           (st_required_ancillae s) (cerr s)).

(** The literal of a fan-in, a [uint32_t]: index shifted left, polarity in
    the lowest bit. *)
Definition literal (f : signal) : N :=
  wrap32 (N.lor (N.shiftl (node_to_index (get_node f)) 1)
                (N.b2n (is_complemented f))).

(** [controls[i]] is written for the [i]-th fan-in; entries beyond the
    fan-ins are read as [0] here. *)
Definition get_fanin_as_literals (n : node) : list N :=
  map literal (foreach_fanin ntk n).

Definition get_fanin_as_qubits (n : node) : M (list qubit) :=
  foldl (fun acc f =>
           controls ← acc;
           assert (negb (is_complemented f));;
           q ← mapped (node_to_index (get_node f));
           mret (controls ++ [q]))
        (mret []) (foreach_fanin ntk n).

Definition lit_node (controls : list N) (i : nat) : node :=
  index_to_node (N.shiftr (controls !!! i) 1).
Definition lit_pol (controls : list N) (i : nat) : bool :=
  negb (N.land (controls !!! i) 1 =? 0).

(** *** Gadgets *)

Definition compute_and (c1 c2 : qubit) (p1 p2 : bool) (t : qubit) : M unit :=
  when p1 (add_gate (X c1));;
  when p2 (add_gate (X c2));;
  add_gate (MCX [c1; c2] [t]);;
  when p2 (add_gate (X c2));;
  when p1 (add_gate (X c1)).

Definition compute_or (c1 c2 : qubit) (p1 p2 : bool) (t : qubit) : M unit :=
  when (negb p1) (add_gate (X c1));;
  when (negb p2) (add_gate (X c2));;
  add_gate (MCX [c1; c2] [t]);;
  add_gate (X t);;
  when (negb p2) (add_gate (X c2));;
  when (negb p1) (add_gate (X c1)).

Definition compute_xor (c1 c2 : qubit) (inv : bool) (t : qubit) : M unit :=
  add_gate (CX c1 t);;
  add_gate (CX c2 t);;
  when inv (add_gate (X t)).

Definition compute_xor3 (c1 c2 c3 : qubit) (inv : bool) (t : qubit) : M unit :=
  add_gate (CX c1 t);;
  add_gate (CX c2 t);;
  add_gate (CX c3 t);;
  when inv (add_gate (X t)).

Definition compute_maj (c1 c2 c3 : qubit) (p1 p2 p3 : bool) (t : qubit) : M unit :=
  when p1 (add_gate (X c1));;
  when (negb p2) (add_gate (X c2));;  (* control 2 behaves opposite *)
  when p3 (add_gate (X c3));;
  add_gate (CX c1 c2);;
  add_gate (CX c3 c1);;
  add_gate (CX c3 t);;
  add_gate (MCX [c1; c2] [t]);;
  add_gate (CX c3 c1);;
  add_gate (CX c1 c2);;
  when p3 (add_gate (X c3));;
  when (negb p2) (add_gate (X c2));;
  when p1 (add_gate (X c1)).

Definition compute_xor_block (controls : list qubit) (t : qubit) : M unit :=
  foreach controls (fun c => when (negb (c =? t)) (add_gate (CX c t))).

Definition compute_lut (function : truth_table) (controls : list qubit)
    (t : qubit) : M unit :=
  let qubit_map := controls ++ [t] in
  foreach (stg_fn function qubit_map) add_gate.

Definition compute_xor_inplace (c1 c2 : qubit) (inv : bool) (t : qubit) : M unit :=
  (if c1 =? t then add_gate (CX c2 c1)
   else if c2 =? t then add_gate (CX c1 c2)
   else cerr_put inplace_mismatch);;
  when inv (add_gate (X t)).

Definition compute_xor3_inplace (c1 c2 c3 : qubit) (inv : bool) (t : qubit)
    : M unit :=
  (if c1 =? t then add_gate (CX c2 c1);; add_gate (CX c3 c1)
   else if c2 =? t then add_gate (CX c1 c2);; add_gate (CX c3 c2)
   else if c3 =? t then add_gate (CX c1 c3);; add_gate (CX c2 c3)
   else cerr_put inplace_mismatch);;
  when inv (add_gate (X t)).

(** *** Node expanders *)

Definition compute_node (node : node) (t : qubit) : M unit :=
  if has_is_and ntk && is_and ntk node then
    let controls := get_fanin_as_literals node in
    c1 ← mapped (lit_node controls 0);
    c2 ← mapped (lit_node controls 1);
    compute_and c1 c2 (lit_pol controls 0) (lit_pol controls 1) t
  else if has_is_or ntk && is_or ntk node then
    let controls := get_fanin_as_literals node in
    c1 ← mapped (lit_node controls 0);
    c2 ← mapped (lit_node controls 1);
    compute_or c1 c2 (lit_pol controls 0) (lit_pol controls 1) t
  else if has_is_xor ntk && is_xor ntk node then
    let controls := get_fanin_as_literals node in
    c1 ← mapped (lit_node controls 0);
    c2 ← mapped (lit_node controls 1);
    compute_xor c1 c2 (xorb (lit_pol controls 0) (lit_pol controls 1)) t
  else if has_is_xor3 ntk && is_xor3 ntk node then
    let controls := get_fanin_as_literals node in
    (* Is XOR3 in fact an XOR2? *)
    if is_constant ntk (lit_node controls 0) then
      c2 ← mapped (lit_node controls 1);
      c3 ← mapped (lit_node controls 2);
      compute_xor c2 c3
        (xorb (xorb (lit_pol controls 0) (lit_pol controls 1)) (lit_pol controls 2)) t
    else
      c1 ← mapped (lit_node controls 0);
      c2 ← mapped (lit_node controls 1);
      c3 ← mapped (lit_node controls 2);
      compute_xor3 c1 c2 c3
        (xorb (xorb (lit_pol controls 0) (lit_pol controls 1)) (lit_pol controls 2)) t
  else if has_is_maj ntk && is_maj ntk node then
    let controls := get_fanin_as_literals node in
    if is_constant ntk (lit_node controls 0) then
      if lit_pol controls 0 then
        c2 ← mapped (lit_node controls 1);
        c3 ← mapped (lit_node controls 2);
        compute_or c2 c3 (lit_pol controls 1) (lit_pol controls 2) t
      else
        c2 ← mapped (lit_node controls 1);
        c3 ← mapped (lit_node controls 2);
        compute_and c2 c3 (lit_pol controls 1) (lit_pol controls 2) t
    else
      c1 ← mapped (lit_node controls 0);
      c2 ← mapped (lit_node controls 1);
      c3 ← mapped (lit_node controls 2);
      compute_maj c1 c2 c3
        (lit_pol controls 0) (lit_pol controls 1) (lit_pol controls 2) t
  else if has_node_function ntk then
    let tt := node_function ntk node in
    let clone := create_parity tt in
    if tt_eqb tt clone then
      controls ← get_fanin_as_qubits node;
      compute_xor_block controls t
    else
      controls ← get_fanin_as_qubits node;
      compute_lut (node_function ntk node) controls t
  else mret tt.

Definition compute_node_inplace (node : node) (t : qubit) : M unit :=
  if has_is_xor ntk && is_xor ntk node then
    let controls := get_fanin_as_literals node in
    c1 ← mapped (lit_node controls 0);
    c2 ← mapped (lit_node controls 1);
    compute_xor_inplace c1 c2 (xorb (lit_pol controls 0) (lit_pol controls 1)) t
  else if has_is_xor3 ntk && is_xor3 ntk node then
    let controls := get_fanin_as_literals node in
    (* Is XOR3 in fact an XOR2? *)
    if is_constant ntk (lit_node controls 0) then
      c2 ← mapped (lit_node controls 1);
      c3 ← mapped (lit_node controls 2);
      compute_xor_inplace c2 c3
        (xorb (xorb (lit_pol controls 0) (lit_pol controls 1)) (lit_pol controls 2)) t
    else
      c1 ← mapped (lit_node controls 0);
      c2 ← mapped (lit_node controls 1);
      c3 ← mapped (lit_node controls 2);
      compute_xor3_inplace c1 c2 c3
        (xorb (xorb (lit_pol controls 0) (lit_pol controls 1)) (lit_pol controls 2)) t
  else if has_node_function ntk then
    controls ← get_fanin_as_qubits node;
    compute_xor_block controls t
  else mret tt.

(** *** The main loop *)

(** The visitor applied to every step yielded by [foreach_step]. *)
Definition exec_step (st : step) : M unit :=
  let '(node, action) := st in
  match action with
  | compute_action =>
      t ← request_ancilla;
      map_node node t;;
      compute_node node t
  | uncompute_action =>
      t ← mapped node;
      compute_node node t;;
      release_ancilla t
  | compute_inplace_action target_index =>
      t ← mapped (index_to_node target_index);
      map_node node t;;
      compute_node_inplace node t
  | uncompute_inplace_action target_index =>
      t ← mapped node;
      compute_node_inplace node t
  end.

Definition drive (steps : list step) : M unit := foreach steps exec_step.

Definition prepare : M unit :=
  prepare_inputs;;
  prepare_constant false;;
  when (negb (get_node (get_constant ntk false) =? get_node (get_constant ntk true)))
       (prepare_constant true).

(** The strategy object as [run] builds it: constructed from the network
    alone, then given the pebble limit if it has [set_pebble_limit]. *)
Definition configured_strategy `{MappingStrategy T} : T :=
  let strategy := construct ntk in
  match set_pebble_limit with
  | Some set => set (pebble_limit ps) strategy
  | None => strategy
  end.

Definition run `{MappingStrategy T} : M unit :=
  prepare;;
  let strategy : T := configured_strategy in
  drive (foreach_step strategy).

End Impl.

(** [logic_network_synthesis]: run the driver on [qnet] and hand back the
    network and the statistics. *)
Definition logic_network_synthesis `{MappingStrategy T} (qnet0 : QuantumNetwork)
    (ntk : LogicNetwork) (stg_fn : truth_table -> list qubit -> list gate)
    (ps : logic_network_synthesis_params)
    : option (QuantumNetwork * logic_network_synthesis_stats) :=
  let s0 := State qnet0 (fun _ => 0) [] 0 [] in
  match run ntk stg_fn ps (T:=T) s0 with
  | Some (_, s) => Some (qnet s, {| required_ancillae := st_required_ancillae s |})
  | None => None
  end.

(** * Vocabulary of the properties *)

(** ** Observing an expander

    An expander reads the node-to-qubit map and appends to the gate list and
    to the error sink; it touches nothing else.  [emit s G D] is [s] after
    appending gates [G] and diagnostics [D]; [probe q] is a state with map
    [q] and empty sinks on which an expander can be observed in isolation. *)

Definition emit (s : impl_state) (G : list gate) (D : list string) : impl_state :=
  State (QNet (num_qubits (qnet s)) (gates (qnet s) ++ G))
        (node_to_qubit s) (free_ancillae s) (st_required_ancillae s)
        (cerr s ++ D).

Definition probe (q : node -> qubit) : impl_state :=
  State (QNet 0 []) q [] 0 [].

Definition replay {A} (s : impl_state) (r : option (A * impl_state))
    : option (A * impl_state) :=
  match r with
  | Some (a, p) => Some (a, emit s (gates (qnet p)) (cerr p))
  | None => None
  end.

(** [local R m]: [m] reads the map only at the nodes of [R], and otherwise
    only appends to the two sinks. *)
Definition local {A} (R : list node) (m : M A) : Prop :=
  forall s q, Forall (fun x => q x = node_to_qubit s x) R ->
    m s = replay s (m (probe q)).

(** The nodes whose qubits an expansion of [n] may look up. *)
Definition reads (ntk : LogicNetwork) (n : node) : list node :=
  let controls := get_fanin_as_literals ntk n in
  [lit_node controls 0; lit_node controls 1; lit_node controls 2]
  ++ map (fun f => node_to_index (get_node f)) (foreach_fanin ntk n).

(** The gates that [m] appends to the quantum network when run in [s]. *)
Definition emitted (m : M unit) (s : impl_state) : option (list gate) :=
  match m s with
  | Some (_, s') => Some (drop (length (gates (qnet s))) (gates (qnet s')))
  | None => None
  end.

(** Two states map [n] and every node that the expansion of [n] looks up to
    the same qubits. *)
Definition same_qubits (ntk : LogicNetwork) (n : node) (s s' : impl_state) : Prop :=
  Forall (fun x => node_to_qubit s x = node_to_qubit s' x) (n :: reads ntk n).

(** The action that undoes a computing action. *)
Definition uncompute_of (a : mapping_strategy_action)
    : option mapping_strategy_action :=
  match a with
  | compute_action => Some uncompute_action
  | compute_inplace_action target_index =>
      Some (uncompute_inplace_action target_index)
  | _ => None
  end.

(** ** Dispatch of the node expander: the first matching kind wins *)

Inductive expansion_kind :=
| ExpAnd | ExpOr | ExpXor | ExpXor3 | ExpMaj | ExpFunction | ExpNothing.

Definition dispatch (ntk : LogicNetwork) (n : node) : expansion_kind :=
  if has_is_and ntk && is_and ntk n then ExpAnd
  else if has_is_or ntk && is_or ntk n then ExpOr
  else if has_is_xor ntk && is_xor ntk n then ExpXor
  else if has_is_xor3 ntk && is_xor3 ntk n then ExpXor3
  else if has_is_maj ntk && is_maj ntk n then ExpMaj
  else if has_node_function ntk then ExpFunction
  else ExpNothing.

(** A fan-in whose node index fits in 31 bits, so that its literal fits in a
    [uint32_t]. *)
Definition fits31 (f : signal) : Prop := get_node f < 2 ^ 31.

(** ** The gadgets as gate lists *)

Definition flip (b : bool) (q : qubit) : list gate := if b then [X q] else [].

Definition and_gadget (c1 c2 : qubit) (p1 p2 : bool) (t : qubit) : list gate :=
  flip p1 c1 ++ flip p2 c2 ++ [MCX [c1; c2] [t]] ++ flip p2 c2 ++ flip p1 c1.

Definition or_gadget (c1 c2 : qubit) (p1 p2 : bool) (t : qubit) : list gate :=
  flip (negb p1) c1 ++ flip (negb p2) c2 ++ [MCX [c1; c2] [t]; X t]
  ++ flip (negb p2) c2 ++ flip (negb p1) c1.

Definition xor_gadget (c1 c2 : qubit) (inv : bool) (t : qubit) : list gate :=
  [CX c1 t; CX c2 t] ++ flip inv t.

Definition maj_gadget (c1 c2 c3 : qubit) (p1 p2 p3 : bool) (t : qubit)
    : list gate :=
  flip p1 c1 ++ flip (negb p2) c2 ++ flip p3 c3
  ++ [CX c1 c2; CX c3 c1; CX c3 t; MCX [c1; c2] [t]; CX c3 c1; CX c1 c2]
  ++ flip p3 c3 ++ flip (negb p2) c2 ++ flip p1 c1.



(** ** In-place target mismatch *)

(** The control qubits that the in-place expansion of an XOR-class node
    compares with its target, under the map [q]. *)
Definition inplace_controls (ntk : LogicNetwork) (q : node -> qubit) (n : node)
    : option (list qubit) :=
  let controls := get_fanin_as_literals ntk n in
  if has_is_xor ntk && is_xor ntk n then
    Some [q (lit_node controls 0); q (lit_node controls 1)]
  else if has_is_xor3 ntk && is_xor3 ntk n then
    if is_constant ntk (lit_node controls 0) then
      Some [q (lit_node controls 1); q (lit_node controls 2)]
    else
      Some [q (lit_node controls 0); q (lit_node controls 1);
            q (lit_node controls 2)]
  else None.

(** The target qubit and the map under which an in-place step expands its
    node. *)
Definition inplace_target (s : impl_state) (n : node)
    (a : mapping_strategy_action) : option (qubit * (node -> qubit)) :=
  match a with
  | compute_inplace_action target_index =>
      let t := node_to_qubit s (index_to_node target_index) in
      Some (t, fun m => if m =? n then t else node_to_qubit s m)
  | uncompute_inplace_action _ => Some (node_to_qubit s n, node_to_qubit s)
  | _ => None
  end.

(** No control of the in-place expansion of [n] is the target. *)
Definition target_mismatch (ntk : LogicNetwork) (s : impl_state) (n : node)
    (a : mapping_strategy_action) : Prop :=
  exists t q cs, inplace_target s n a = Some (t, q)
    /\ inplace_controls ntk q n = Some cs /\ t ∉ cs.

(** ** Step streams *)

(** The nodes a strategy schedules: neither constants nor primary inputs. *)
Definition is_gate (ntk : LogicNetwork) (n : node) : bool :=
  negb (is_constant ntk n || is_pi ntk n).

Definition gate_nodes (ntk : LogicNetwork) (l : list node) : list node :=
  List.filter (is_gate ntk) l.

Definition is_driver (ntk : LogicNetwork) (n : node) : bool :=
  bool_decide (n ∈ po_drivers ntk).

(** What a strategy schedules for one gate: the step that materialises it
    and, unless it stays materialised, the step that frees it again. *)
Definition bracket : Type := step * option step.

(** A stream of nested brackets: every opening step in order, then the
    closing steps in reverse order. *)
Definition assemble (bs : list bracket) : list step :=
  map fst bs ++ reverse (omap snd bs).

Definition insert_bracket (b : bracket) (st : list step * nat) : list step * nat :=
  let '(steps, it) := st in
  let '(steps, it) := vec_insert steps it (fst b) in
  let it := S it in
  match snd b with
  | Some u => vec_insert steps it u
  | None => (steps, it)
  end.

Definition out_of_place (ntk : LogicNetwork) (n : node) : bracket :=
  ((n, compute_action),
   if is_driver ntk n then None else Some (n, uncompute_action)).

(** [b] is immediately followed by [c] in [l]. *)
Definition adjacent {A} (l : list A) (b c : A) : Prop :=
  exists i, l !! i = Some b /\ l !! S i = Some c.

(** The Bennett stream as the specification words it: every scheduled gate
    that is not a primary-output driver has its [Uncompute] right after its
    [Compute]. *)
Definition uncompute_follows_at_once (ntk : LogicNetwork) : Prop :=
  forall n, n ∈ gate_nodes ntk (topo_foreach_node ntk) ->
    is_driver ntk n = false ->
    adjacent (Bennett.bennett_mapping_strategy ntk)
             (n, compute_action) (n, uncompute_action).

(** *** The in-place rule in the words of the specification *)

(** Decrement the counter of every fan-in in turn; the result is the
    counters afterwards and the fan-ins whose counter reached zero, in
    fan-in order. *)
Fixpoint count_down (vs : BennettInplace.values) (fs : list signal)
    : BennettInplace.values * list node :=
  match fs with
  | [] => (vs, [])
  | f :: fs =>
      let '(v, vs) := BennettInplace.decr_value (get_node f) vs in
      let '(vs, zs) := count_down vs fs in
      (vs, if v =? 0 then get_node f :: zs else zs)
  end.

Definition xor_class (ntk : LogicNetwork) (n : node) : bool :=
  (has_is_xor ntk && is_xor ntk n) || (has_is_xor3 ntk && is_xor3 ntk n).

(** In place exactly when some counter reached zero, the gate is no driver
    and it is an XOR or XOR3; the target is the first fan-in whose counter
    reached zero. *)
Definition inplace_rule (ntk : LogicNetwork) (n : node) (zs : list node) : bracket :=
  match zs with
  | target :: _ =>
      if negb (is_driver ntk n) && xor_class ntk n
      then ((n, compute_inplace_action (node_to_index target)),
            Some (n, uncompute_inplace_action (node_to_index target)))
      else out_of_place ntk n
  | [] => out_of_place ntk n
  end.

Fixpoint inplace_brackets (ntk : LogicNetwork) (vs : BennettInplace.values)
    (l : list node) : list bracket :=
  match l with
  | [] => []
  | n :: l =>
      if is_gate ntk n then
        let '(vs, zs) := count_down vs (foreach_fanin ntk n) in
        inplace_rule ntk n zs :: inplace_brackets ntk vs l
      else inplace_brackets ntk vs l
  end.

(** A fan-in index that is representable as a non-negative [int] distinct
    from the sentinel [-1] of the in-place strategy. *)
Definition below_sentinel (f : signal) : Prop := get_node f < 2 ^ 31.

(** The value of [target] after the fan-in loop, given the fan-ins whose
    counter reached zero. *)
Definition first_or_sentinel (zs : list node) : Z :=
  match zs with
  | z :: _ => Z.of_N z
  | [] => (-1)%Z
  end.

(** ** Totality of the expanders *)

(** The only way an expansion can stop is the assertion of the
    truth-table path, which wants plain fan-ins. *)
Definition expander_defined (ntk : LogicNetwork) (n : node) : bool :=
  match dispatch ntk n with
  | ExpFunction => forallb (fun f => negb (is_complemented f)) (foreach_fanin ntk n)
  | _ => true
  end.

(** [runs m]: [m] always completes, and only appends to the two sinks. *)
Definition runs {A} (m : M A) : Prop :=
  forall s, exists a G D, m s = Some (a, emit s G D).

(** [completes P m]: [m] always completes, relating the states before and
    after by [P]. *)
Definition completes (P : relation impl_state) {A} (m : M A) : Prop :=
  forall s, exists a s', m s = Some (a, s') /\ P s s'.

(** The ancilla pool and the statistics are left alone. *)
Definition pool_kept : relation impl_state := fun s s' =>
  free_ancillae s' = free_ancillae s
  /\ st_required_ancillae s' = st_required_ancillae s.

(** ** The ancilla pool against the node-to-qubit map *)

(** The nodes that [prepare] puts on a qubit: the primary inputs and the
    constants that have fan-out. *)
Definition prepared_nodes (ntk : LogicNetwork) : list node :=
  let n0 := get_node (get_constant ntk false) in
  let n1 := get_node (get_constant ntk true) in
  foreach_pi ntk
  ++ (if fanout_size ntk n0 =? 0 then [] else [n0])
  ++ (if negb (n0 =? n1) then if fanout_size ntk n1 =? 0 then [] else [n1]
      else []).

(** The gates that hold an ancilla of their own: computed and not yet
    uncomputed.  A gate computed in place borrows the qubit of its target
    and holds none. *)
Definition track (owners : list node) (st : step) : list node :=
  match st with
  | (n, compute_action) => n :: owners
  | (n, uncompute_action) => filter (fun m => m <> n) owners
  | _ => owners
  end.

Definition owners_after (steps : list step) : list node := foldl track [] steps.

(** A step that respects the pairing: only a node without a qubit is
    computed, only a gate holding an ancilla is uncomputed. *)
Definition step_paired (fixed owners : list node) (st : step) : bool :=
  match st with
  | (n, compute_action) | (n, compute_inplace_action _) =>
      negb (bool_decide (n ∈ fixed)) && negb (bool_decide (n ∈ owners))
  | (n, uncompute_action) => bool_decide (n ∈ owners)
  | (n, uncompute_inplace_action _) => true
  end.

Fixpoint well_paired (fixed owners : list node) (steps : list step) : bool :=
  match steps with
  | [] => true
  | st :: steps =>
      step_paired fixed owners st && well_paired fixed (track owners st) steps
  end.

(** No qubit of the pool is the qubit of one of the nodes [ns]. *)
Definition pool_apart (s : impl_state) (ns : list node) : Prop :=
  forall n, n ∈ ns -> node_to_qubit s n ∉ free_ancillae s.

(** The state of the driver after [prepare] and the first [k] steps. *)
Definition after_prefix (ntk : LogicNetwork)
    (stg_fn : truth_table -> list qubit -> list gate) (steps : list step)
    (k : nat) (s0 : impl_state) : option (unit * impl_state) :=
  (prepare ntk ;; drive ntk stg_fn (take k steps)) s0.

(** The invariant as the specification words it, over the whole map: no
    qubit of the pool is the entry of any node of the network. *)
Definition pool_apart_from_map (ntk : LogicNetwork)
    (stg_fn : truth_table -> list qubit -> list gate) (steps : list step)
    (s0 : impl_state) : Prop :=
  forall k s, after_prefix ntk stg_fn steps k s0 = Some (tt, s) ->
    pool_apart s (foreach_node ntk).

(** The inductive invariant behind it: the pool has no duplicates and only
    allocated qubits, and the nodes [L] sit on distinct allocated qubits
    outside the pool. *)
Record pool_inv (L : list node) (s : impl_state) : Prop := PoolInv {
  inv_nodup : NoDup (free_ancillae s);
  inv_free_bound : forall q, q ∈ free_ancillae s -> q < num_qubits (qnet s);
  inv_live_bound : forall n, n ∈ L -> node_to_qubit s n < num_qubits (qnet s);
  inv_apart : pool_apart s L;
  inv_inj : forall n m, n ∈ L -> m ∈ L ->
    node_to_qubit s n = node_to_qubit s m -> n = m
}.

(** The invariant of the main loop: the pool invariant for the prepared
    nodes [fixed] and the owners, which are no prepared nodes. *)
Definition loop_inv (fixed owners : list node) (s : impl_state) : Prop :=
  pool_inv (fixed ++ owners) s /\ (forall n, n ∈ owners -> n ∉ fixed).

(** ** The statistic of a Bennett run *)


(** ** Vocabulary of the further properties *)

(** The XOR3 gadget: three CNOTs into the target and the inversion. *)
Definition xor3_gadget (c1 c2 c3 : qubit) (inv : bool) (t : qubit) : list gate :=
  [CX c1 t; CX c2 t; CX c3 t] ++ flip inv t.

(** The XOR block of the truth-table path: one CNOT per control that is not
    the target. *)
Definition xor_block_gadget (controls : list qubit) (t : qubit) : list gate :=
  map (fun c => CX c t) (List.filter (fun c => negb (c =? t)) controls).

(** The qubits of the fan-ins of [n] as [get_fanin_as_qubits] collects
    them. *)
Definition fanin_qubits (ntk : LogicNetwork) (q : node -> qubit) (n : node)
    : list qubit :=
  map (fun f => q (node_to_index (get_node f))) (foreach_fanin ntk n).

(** The in-place expander stops only on the assertion of its truth-table
    path. *)
Definition inplace_expander_defined (ntk : LogicNetwork) (n : node) : bool :=
  if has_is_xor ntk && is_xor ntk n then true
  else if has_is_xor3 ntk && is_xor3 ntk n then true
  else if has_node_function ntk then
    forallb (fun f => negb (is_complemented f)) (foreach_fanin ntk n)
  else true.

(** Releasing a list of qubits one after the other, and requesting [k]
    ancillae one after the other. *)
Definition release_all (qs : list qubit) : M unit := foreach qs release_ancilla.

Fixpoint request_n (k : nat) : M (list qubit) :=
  match k with
  | O => mret []
  | S k => q ← request_ancilla; qs ← request_n k; mret (q :: qs)
  end.

Definition is_compute_step (st : step) : bool :=
  match snd st with
  | compute_action => true
  | _ => false
  end.

(** Putting node [n] on a fresh qubit, as [prepare_inputs] and
    [prepare_constant] do. *)
Definition allocate (n : node) (s : impl_state) : impl_state :=
  State (QNet (num_qubits (qnet s) + 1) (gates (qnet s)))
        (fun m => if m =? n then num_qubits (qnet s) else node_to_qubit s m)
        (free_ancillae s) (st_required_ancillae s) (cerr s).

Definition allocate_all (l : list node) (s : impl_state) : impl_state :=
  foldl (fun s n => allocate n s) s l.

(** The gate that [prepare_constant value] adds when the constant has
    fan-out and is put on qubit [q]. *)
Definition constant_gate (ntk : LogicNetwork) (value : bool) (q : qubit)
    : list gate :=
  let f := get_constant ntk value in
  if fanout_size ntk (get_node f) =? 0 then []
  else flip (xorb (constant_value ntk (get_node f)) (is_complemented f)) q.

(** A bracket that the in-place strategy may schedule for gate [n]: the
    out-of-place one, or, for an XOR or XOR3 that is no driver, an in-place
    pair on some target. *)
Definition bracket_of_gate (ntk : LogicNetwork) (n : node) (b : bracket) : Prop :=
  b = out_of_place ntk n
  \/ (is_driver ntk n = false /\ xor_class ntk n = true
      /\ exists target,
           b = ((n, compute_inplace_action target),
                Some (n, uncompute_inplace_action target))).

(** A step that does not run into the assertion of the truth-table path. *)
Definition step_defined (ntk : LogicNetwork) (st : step) : bool :=
  match snd st with
  | compute_action | uncompute_action => expander_defined ntk (fst st)
  | compute_inplace_action _ | uncompute_inplace_action _ =>
      inplace_expander_defined ntk (fst st)
  end.

(** *** The action of the emitted gates on basis states *)

(** Modelled from the spec: the gate kinds of the quantum network (its code
    is not among the sources) are "NOT, CNOT, Toffoli/MCX": Pauli-X negates
    its target, CX and MCX ("multi-controlled NOT") negate the target when
    every control is set.  A basis state gives every qubit a Boolean. *)
Definition qstate : Type := qubit -> bool.

Definition negate (t : qubit) (σ : qstate) : qstate :=
  fun q => if q =? t then negb (σ q) else σ q.

(** Modelled from the spec: see [qstate]. *)
Definition apply_gate (g : gate) (σ : qstate) : qstate :=
  match gate_kind g with
  | pauli_x => foldr negate σ (gate_targets g)
  | cx | mcx =>
      if forallb σ (gate_controls g) then foldr negate σ (gate_targets g)
      else σ
  end.

Definition run_gates (G : list gate) (σ : qstate) : qstate :=
  foldl (fun σ g => apply_gate g σ) σ G.

(** [G] adds the Boolean [f σ] onto qubit [t] and leaves every other qubit
    as it was. *)
Definition adds_onto (G : list gate) (t : qubit) (f : qstate -> bool) : Prop :=
  forall σ q,
    run_gates G σ q = if q =? t then xorb (σ t) (f σ) else σ q.

Definition maj (a b c : bool) : bool := (a && b) || (a && c) || (b && c).

(** [emits m G]: [m] appends the gates [G] and does nothing else. *)
Definition emits (m : M unit) (G : list gate) : Prop :=
  forall s, m s = Some (tt, emit s G []).

(** *** Gate lists over numbered wires

    A gadget touches a handful of qubits and treats them alike: what it does
    on the qubits [qs] is what the same gadget does on the wires
    [0 .. length qs - 1], renamed.  On [k] wires its action can be tabulated
    over the [2 ^ k] assignments. *)

Definition rename_gate (f : qubit -> qubit) (g : gate) : gate :=
  Gate (gate_kind g) (map f (gate_controls g)) (map f (gate_targets g)).

(** The qubit of wire [i]. *)
Definition place (qs : list qubit) (i : qubit) : qubit :=
  nth (N.to_nat i) qs 0.

(** The basis state in which wire [i] holds the [i]-th Boolean of [bs]. *)
Definition values_at (bs : list bool) : qstate :=
  fun i => nth (N.to_nat i) bs false.

(** The state [σ] of the qubits and the state [ρ] of the wires agree. *)
Definition agree (qs : list qubit) (σ ρ : qstate) : Prop :=
  forall i, (N.to_nat i < length qs)%nat -> σ (place qs i) = ρ i.

Definition gate_within (k : nat) (g : gate) : bool :=
  forallb (fun q => (N.to_nat q <? k)%nat)
          (gate_controls g ++ gate_targets g).

Fixpoint all_values (k : nat) : list (list bool) :=
  match k with
  | O => [[]]
  | S k => map (cons true) (all_values k) ++ map (cons false) (all_values k)
  end.

(** On every assignment of [k] wires, [G] adds [F] onto wire [t] and leaves
    the other wires alone. *)
Definition adds_on_table (k : nat) (G : list gate) (t : qubit)
    (F : list bool -> bool) : bool :=
  forallb (fun bs =>
    forallb (fun i =>
      eqb (run_gates G (values_at bs) i)
          (if i =? t then xorb (values_at bs t) (F bs) else values_at bs i))
      (map N.of_nat (seq 0 k)))
    (all_values k).

(** ** Example networks *)

Module Examples.

Definition no_function : truth_table := TruthTable 0 [].

(** Inputs 1 and 2; [3 = AND(1,2)], [4 = AND(3, !1)], [5 = AND(4, !3)];
    the output is 5. *)
Definition and_chain : LogicNetwork := {|
  foreach_node := [0; 1; 2; 3; 4; 5];
  topo_foreach_node := [0; 1; 2; 3; 4; 5];
  foreach_pi := [1; 2];
  foreach_po := [Signal 5 false];
  foreach_fanin n :=
    if n =? 3 then [Signal 1 false; Signal 2 false]
    else if n =? 4 then [Signal 3 false; Signal 1 true]
    else if n =? 5 then [Signal 4 false; Signal 3 true]
    else [];
  is_constant n := n =? 0;
  is_pi n := (n =? 1) || (n =? 2);
  get_constant b := Signal 0 b;
  constant_value _ := false;
  fanout_size n :=
    if n =? 1 then 2 else if n =? 2 then 1 else if n =? 3 then 2
    else if n =? 4 then 1 else if n =? 5 then 1 else 0;
  has_is_and := true; is_and n := 3 <=? n;
  has_is_or := false; is_or _ := false;
  has_is_xor := true; is_xor _ := false;
  has_is_xor3 := false; is_xor3 _ := false;
  has_is_maj := false; is_maj _ := false;
  has_node_function := false; node_function _ := no_function
|}.


(** An XMG: constant 0, inputs 1, 2 and 3; [4 = MAJ(!0, 1, !2)],
    [5 = MAJ(1, !2, 3)], [6 = XOR3(!0, 1, 3)], [7 = XOR3(4, 5, 6)]; the
    output is 7. *)
Definition xmg : LogicNetwork := {|
  foreach_node := [0; 1; 2; 3; 4; 5; 6; 7];
  topo_foreach_node := [0; 1; 2; 3; 4; 5; 6; 7];
  foreach_pi := [1; 2; 3];
  foreach_po := [Signal 7 false];
  foreach_fanin n :=
    if n =? 4 then [Signal 0 true; Signal 1 false; Signal 2 true]
    else if n =? 5 then [Signal 1 false; Signal 2 true; Signal 3 false]
    else if n =? 6 then [Signal 0 true; Signal 1 false; Signal 3 false]
    else if n =? 7 then [Signal 4 false; Signal 5 false; Signal 6 false]
    else [];
  is_constant n := n =? 0;
  is_pi n := (1 <=? n) && (n <=? 3);
  get_constant b := Signal 0 b;
  constant_value _ := false;
  fanout_size n :=
    if n =? 0 then 2 else if n =? 1 then 3 else if n =? 2 then 2
    else if n =? 3 then 2 else if n <=? 7 then 1 else 0;
  has_is_and := false; is_and _ := false;
  has_is_or := false; is_or _ := false;
  has_is_xor := false; is_xor _ := false;
  has_is_xor3 := true; is_xor3 n := (n =? 6) || (n =? 7);
  has_is_maj := true; is_maj n := (n =? 4) || (n =? 5);
  has_node_function := false; node_function _ := no_function
|}.


(** An XOR-AND-OR graph: inputs 1 and 2; [3 = OR(!1, 2)],
    [4 = XOR(3, !1)]; the output is 4. *)
Definition xag : LogicNetwork := {|
  foreach_node := [0; 1; 2; 3; 4];
  topo_foreach_node := [0; 1; 2; 3; 4];
  foreach_pi := [1; 2];
  foreach_po := [Signal 4 false];
  foreach_fanin n :=
    if n =? 3 then [Signal 1 true; Signal 2 false]
    else if n =? 4 then [Signal 3 false; Signal 1 true]
    else [];
  is_constant n := n =? 0;
  is_pi n := (n =? 1) || (n =? 2);
  get_constant b := Signal 0 b;
  constant_value _ := false;
  fanout_size n :=
    if n =? 1 then 2 else if n =? 2 then 1 else if n =? 3 then 1
    else if n =? 4 then 1 else 0;
  has_is_and := true; is_and _ := false;
  has_is_or := true; is_or n := n =? 3;
  has_is_xor := true; is_xor n := n =? 4;
  has_is_xor3 := false; is_xor3 _ := false;
  has_is_maj := false; is_maj _ := false;
  has_node_function := false; node_function _ := no_function
|}.

Definition and2 : truth_table := TruthTable 2 [false; false; false; true].
Definition parity3 : truth_table := create_parity (TruthTable 3 []).

(** A k-LUT network: constants 0 and 1, inputs 2, 3 and 4; node 5 is the AND
    of 2 and 3, node 6 the parity of 5, 4 and 2; the output is 6.  Its
    fan-ins are plain. *)
Definition klut : LogicNetwork := {|
  foreach_node := [0; 1; 2; 3; 4; 5; 6];
  topo_foreach_node := [0; 1; 2; 3; 4; 5; 6];
  foreach_pi := [2; 3; 4];
  foreach_po := [Signal 6 false];
  foreach_fanin n :=
    if n =? 5 then [Signal 2 false; Signal 3 false]
    else if n =? 6 then [Signal 5 false; Signal 4 false; Signal 2 false]
    else [];
  is_constant n := n <=? 1;
  is_pi n := (2 <=? n) && (n <=? 4);
  get_constant b := Signal (N.b2n b) false;
  constant_value n := n =? 1;
  fanout_size n :=
    if n =? 2 then 2 else if n <=? 1 then 0 else if n <=? 6 then 1 else 0;
  has_is_and := false; is_and _ := false;
  has_is_or := false; is_or _ := false;
  has_is_xor := false; is_xor _ := false;
  has_is_xor3 := false; is_xor3 _ := false;
  has_is_maj := false; is_maj _ := false;
  has_node_function := true;
  node_function n := if n =? 5 then and2 else if n =? 6 then parity3 else no_function
|}.

(** The network [klut] with the second fan-in of node 5 complemented. *)
Definition klut_complemented : LogicNetwork := {|
  foreach_node := foreach_node klut;
  topo_foreach_node := topo_foreach_node klut;
  foreach_pi := foreach_pi klut;
  foreach_po := foreach_po klut;
  foreach_fanin n :=
    if n =? 5 then [Signal 2 false; Signal 3 true] else foreach_fanin klut n;
  is_constant := is_constant klut;
  is_pi := is_pi klut;
  get_constant := get_constant klut;
  constant_value := constant_value klut;
  fanout_size := fanout_size klut;
  has_is_and := false; is_and _ := false;
  has_is_or := false; is_or _ := false;
  has_is_xor := false; is_xor _ := false;
  has_is_xor3 := false; is_xor3 _ := false;
  has_is_maj := false; is_maj _ := false;
  has_node_function := true;
  node_function := node_function klut
|}.

(** A synthesis callback that answers with one multi-controlled X from the
    leading qubits of the map onto the last one. *)
Definition mcx_stg : truth_table -> list qubit -> list gate :=
  fun _ qubit_map =>
    [MCX (take (length qubit_map - 1) qubit_map)
         (drop (length qubit_map - 1) qubit_map)].

Definition no_stg : truth_table -> list qubit -> list gate := fun _ _ => [].
Definition default_ps : logic_network_synthesis_params :=
  {| pebble_limit := 0; verbose := false |}.

(** The driver's state when [run] starts on an empty quantum network. *)
Definition start : impl_state := State (QNet 0 []) (fun _ => 0) [] 0 [].

(** A state in which node [n] sits on qubit [n]. *)
Definition identity_state : impl_state := State (QNet 8 []) (fun n => n) [] 0 [].

Definition state_of (r : option (unit * impl_state)) : impl_state :=
  match r with
  | Some (_, s) => s
  | None => start
  end.

End Examples.

(** * Properties *)

(** ** Locality of the expanders *)

Lemma emit_nil s : emit s [] [] = s.
Proof. destruct s as [[? ?] ? ? ? ?]. unfold emit; simpl. by rewrite !app_nil_r. Qed.

Lemma emit_emit s G D G' D' :
  emit (emit s G D) G' D' = emit s (G ++ G') (D ++ D').
Proof. unfold emit; simpl. by rewrite !app_assoc. Qed.

Lemma local_fixes_probe {A} R (m : M A) q a p :
  local R m -> m (probe q) = Some (a, p) ->
  p = emit (probe q) (gates (qnet p)) (cerr p).
Proof.
  intros Hm E. specialize (Hm (probe q) q). simpl in Hm.
  rewrite E in Hm. simpl in Hm.
  assert (Some (a, p) = Some (a, emit (probe q) (gates (qnet p)) (cerr p))) as H
    by (apply Hm, Forall_forall; done).
  congruence.
Qed.

Lemma local_frame {A} R (m : M A) s a s' :
  local R m -> m s = Some (a, s') ->
  exists G D, s' = emit s G D.
Proof.
  intros Hm E. rewrite (Hm s (node_to_qubit s)) in E by (apply Forall_forall; done).
  destruct (m (probe (node_to_qubit s))) as [[b p]|]; simpl in E; [|done].
  exists (gates (qnet p)), (cerr p). congruence.
Qed.

Lemma local_ret {A} R (a : A) : local R (mret a).
Proof. intros s q _. simpl. unfold mret, M_ret. simpl. by rewrite emit_nil. Qed.

Lemma local_bind {A B} R (m : M A) (f : A -> M B) :
  local R m -> (forall a, local R (f a)) -> local R (m ≫= f).
Proof.
  intros Hm Hf s q Hq. unfold mbind, M_bind.
  rewrite (Hm s q Hq).
  destruct (m (probe q)) as [[a p]|] eqn:E; simpl; [|done].
  pose proof (local_fixes_probe _ _ _ _ _ Hm E) as Hp.
  rewrite (Hf a (emit s _ _) q Hq).
  rewrite (Hf a p q) by (rewrite Hp; apply Forall_forall; done).
  destruct (f a (probe q)) as [[b p']|]; simpl; [|done].
  by rewrite emit_emit.
Qed.

Lemma local_add_gate R g : local R (add_gate g).
Proof.
  intros [[nq gs] q fr ra ce] q' _. unfold add_gate, replay, emit; simpl.
  by rewrite app_nil_r.
Qed.

Lemma local_cerr_put R msg : local R (cerr_put msg).
Proof.
  intros [[nq gs] q fr ra ce] q' _. unfold cerr_put, replay, emit; simpl.
  by rewrite app_nil_r.
Qed.

Lemma local_mapped R n : n ∈ R -> local R (mapped n).
Proof.
  intros Hn s q Hq. unfold mapped; simpl. rewrite emit_nil.
  rewrite Forall_forall in Hq. by rewrite (Hq n Hn).
Qed.

Lemma local_assert R b : local R (assert b).
Proof. intros s q _. unfold assert. destruct b; simpl; [by rewrite emit_nil|done]. Qed.

Lemma local_when R b m : local R m -> local R (when b m).
Proof. destruct b; simpl; [done|intros; apply local_ret]. Qed.

Lemma local_foreach {A} R (l : list A) body :
  (forall a, local R (body a)) -> local R (foreach l body).
Proof.
  intros Hb. induction l as [|a l IH]; simpl.
  - apply local_ret.
  - apply local_bind; [apply Hb | intros _; apply IH].
Qed.

Create HintDb local.
#[local] Hint Resolve local_ret local_add_gate local_cerr_put
  local_assert local_when local_foreach : local.

Ltac solve_local :=
  repeat first
    [ progress intros
    | apply local_bind
    | apply local_when
    | apply local_foreach
    | solve [auto with local]
    | solve [apply local_mapped; set_solver]
    | match goal with
      | |- local _ (if ?b then _ else _) => destruct b
      end ].

Section ImplLocal.

Variable ntk : LogicNetwork.
Variable stg_fn : truth_table -> list qubit -> list gate.

Lemma get_fanin_as_qubits_local n : local (reads ntk n) (get_fanin_as_qubits ntk n).
Proof.
  unfold get_fanin_as_qubits.
  assert (Hin : forall f, f ∈ foreach_fanin ntk n ->
                  node_to_index (get_node f) ∈ reads ntk n).
  { intros f Hf. unfold reads. apply elem_of_app. right.
    apply list_elem_of_fmap. by exists f. }
  revert Hin. generalize (foreach_fanin ntk n) as fs.
  assert (Hacc : local (reads ntk n) (mret [] : M (list qubit))) by apply local_ret.
  revert Hacc. generalize (mret [] : M (list qubit)) as acc.
  intros acc Hacc fs. revert acc Hacc.
  induction fs as [|f fs IH]; intros acc Hacc Hin; simpl; [done|].
  apply IH; [|intros g Hg; apply Hin; by right].
  solve_local.
Qed.

Lemma compute_node_local n t : local (reads ntk n) (compute_node ntk stg_fn n t).
Proof.
  unfold compute_node, compute_and, compute_or, compute_xor, compute_xor3,
    compute_maj, compute_xor_block, compute_lut.
  pose proof (get_fanin_as_qubits_local n).
  solve_local.
Qed.

Lemma compute_node_inplace_local n t :
  local (reads ntk n) (compute_node_inplace ntk n t).
Proof.
  unfold compute_node_inplace, compute_xor_inplace, compute_xor3_inplace,
    compute_xor_block.
  pose proof (get_fanin_as_qubits_local n).
  solve_local.
Qed.

End ImplLocal.

(** ** Literals *)

Lemma literal_eq f :
  literal f = (2 * get_node f + N.b2n (is_complemented f)) mod 2 ^ 32.
Proof.
  unfold literal, wrap32, uint32_max, node_to_index. f_equal.
  destruct (get_node f) as [|p], (is_complemented f); reflexivity.
Qed.

Lemma mod_2_32_mod_2 x : (x mod 2 ^ 32) mod 2 = x mod 2.
Proof.
  change (2 ^ 32) with (2 * 2 ^ 31).
  rewrite N.Div0.mod_mul_r, (N.mul_comm 2), N.Div0.mod_add.
  apply N.Div0.mod_mod.
Qed.

(** The polarity bit always survives the encoding. *)
Lemma literal_polarity f :
  negb (N.land (literal f) 1 =? 0) = is_complemented f.
Proof.
  rewrite literal_eq.
  change 1 with (N.ones 1). rewrite N.land_ones. change (2 ^ 1) with 2.
  rewrite mod_2_32_mod_2, N.add_comm, N.mul_comm, N.Div0.mod_add.
  by destruct (is_complemented f).
Qed.

(** The node survives it when its index fits in 31 bits. *)
Lemma literal_node f :
  get_node f < 2 ^ 31 -> index_to_node (N.shiftr (literal f) 1) = get_node f.
Proof.
  intros Hlt. rewrite literal_eq. unfold index_to_node.
  rewrite N.mod_small by (destruct (is_complemented f); simpl; lia).
  rewrite N.shiftr_div_pow2. change (2 ^ 1) with 2.
  destruct (is_complemented f); simpl N.b2n.
  - rewrite N.add_comm, N.mul_comm, N.div_add by lia. reflexivity.
  - rewrite N.add_0_r, N.mul_comm, N.div_mul by lia. reflexivity.
Qed.

Section Decode.
Variable ntk : LogicNetwork.
Variables (n : node) (fs : list signal).
Hypothesis Hfs : foreach_fanin ntk n = fs.

Lemma lit_pol_fanin i f :
  fs !! i = Some f ->
  lit_pol (get_fanin_as_literals ntk n) i = is_complemented f.
Proof.
  intros Hi. unfold lit_pol, get_fanin_as_literals. rewrite Hfs.
  rewrite (list_lookup_total_correct (map literal fs) i (literal f))
    by (rewrite list_lookup_fmap, Hi; done).
  apply literal_polarity.
Qed.

Lemma lit_node_fanin i f :
  fs !! i = Some f -> fits31 f ->
  lit_node (get_fanin_as_literals ntk n) i = get_node f.
Proof.
  intros Hi Hfit. unfold lit_node, get_fanin_as_literals. rewrite Hfs.
  rewrite (list_lookup_total_correct (map literal fs) i (literal f))
    by (rewrite list_lookup_fmap, Hi; done).
  by apply literal_node.
Qed.
End Decode.

(** ** The expanders observed on a probe *)

Lemma compute_node_probe ntk stg_fn n t s :
  compute_node ntk stg_fn n t s
  = replay s (compute_node ntk stg_fn n t (probe (node_to_qubit s))).
Proof. apply compute_node_local, Forall_forall. done. Qed.

Lemma compute_node_inplace_probe ntk n t s :
  compute_node_inplace ntk n t s
  = replay s (compute_node_inplace ntk n t (probe (node_to_qubit s))).
Proof. apply compute_node_inplace_local, Forall_forall. done. Qed.

Lemma dispatch_maj ntk n :
  dispatch ntk n = ExpMaj ->
  has_is_and ntk && is_and ntk n = false /\ has_is_or ntk && is_or ntk n = false
  /\ has_is_xor ntk && is_xor ntk n = false
  /\ has_is_xor3 ntk && is_xor3 ntk n = false
  /\ has_is_maj ntk && is_maj ntk n = true.
Proof.
  unfold dispatch.
  destruct (has_is_and ntk && is_and ntk n); [done|].
  destruct (has_is_or ntk && is_or ntk n); [done|].
  destruct (has_is_xor ntk && is_xor ntk n); [done|].
  destruct (has_is_xor3 ntk && is_xor3 ntk n); [done|].
  destruct (has_is_maj ntk && is_maj ntk n); [done|].
  destruct (has_node_function ntk); done.
Qed.


(** C7: a MAJ gate with a constant first fan-in expands to exactly the OR
    gadget on the other two fan-ins when that fan-in's polarity bit is set
    and to exactly the AND gadget otherwise; when the first fan-in is not a
    constant (in particular when no fan-in is), it expands to the majority
    gadget CNOT(c1,c2), CNOT(c3,c1), CNOT(c3,t), Toffoli(c1,c2;t),
    CNOT(c3,c1), CNOT(c1,c2) between the X flips of c1 (polarity set), c2
    (polarity not set) and c3 (polarity set), undone in reverse order. *)
Theorem maj_expansion ntk stg_fn n f1 f2 f3 t s :
  dispatch ntk n = ExpMaj ->
  foreach_fanin ntk n = [f1; f2; f3] ->
  fits31 f1 -> fits31 f2 -> fits31 f3 ->
  let c1 := node_to_qubit s (get_node f1) in
  let c2 := node_to_qubit s (get_node f2) in
  let c3 := node_to_qubit s (get_node f3) in
  let p1 := is_complemented f1 in
  let p2 := is_complemented f2 in
  let p3 := is_complemented f3 in
  compute_node ntk stg_fn n t s
  = Some (tt, emit s
      (if is_constant ntk (get_node f1) then
         if p1 then or_gadget c2 c3 p2 p3 t else and_gadget c2 c3 p2 p3 t
       else maj_gadget c1 c2 c3 p1 p2 p3 t)
      []).
Proof.
  intros Hd Hfs H1 H2 H3 c1 c2 c3 p1 p2 p3.
  apply dispatch_maj in Hd as (Ea & Eo & Ex & Ex3 & Em).
  rewrite compute_node_probe. unfold compute_node.
  rewrite Ea, Eo, Ex, Ex3, Em.
  rewrite !(lit_pol_fanin ntk n _ Hfs 0 f1), !(lit_pol_fanin ntk n _ Hfs 1 f2),
    !(lit_pol_fanin ntk n _ Hfs 2 f3) by done.
  rewrite !(lit_node_fanin ntk n _ Hfs 0 f1), !(lit_node_fanin ntk n _ Hfs 1 f2),
    !(lit_node_fanin ntk n _ Hfs 2 f3) by done.
  subst p1 p2 p3 c1 c2 c3.
  destruct (is_constant ntk (get_node f1)), (is_complemented f1),
    (is_complemented f2), (is_complemented f3); reflexivity.
Qed.


(** C10: on the mismatch path of the in-place XOR and XOR3 expansions with
    the inversion flag set, the expansion is the diagnostic followed by a
    Pauli-X on the target: the quantum network grows by that gate. *)
Theorem mismatch_still_inverts c1 c2 c3 t s :
  c1 <> t -> c2 <> t ->
  (compute_xor_inplace c1 c2 true t s
     = (cerr_put inplace_mismatch ;; add_gate (X t)) s
   /\ compute_xor_inplace c1 c2 true t s = Some (tt, emit s [X t] [inplace_mismatch]))
  /\ (c3 <> t ->
      compute_xor3_inplace c1 c2 c3 true t s
        = (cerr_put inplace_mismatch ;; add_gate (X t)) s
      /\ compute_xor3_inplace c1 c2 c3 true t s
        = Some (tt, emit s [X t] [inplace_mismatch])).
Proof.
  intros H1 H2.
  unfold compute_xor_inplace, compute_xor3_inplace.
  apply N.eqb_neq in H1, H2. rewrite H1, H2.
  repeat split; try reflexivity.
  - apply N.eqb_neq in H. rewrite H. reflexivity.
  - apply N.eqb_neq in H. rewrite H. reflexivity.
Qed.

Lemma compute_node_inplace_mismatch ntk n t s cs :
  inplace_controls ntk (node_to_qubit s) n = Some cs -> t ∉ cs ->
  exists G, compute_node_inplace ntk n t s = Some (tt, emit s G [inplace_mismatch]).
Proof.
  intros Hcs Ht. rewrite compute_node_inplace_probe.
  unfold inplace_controls in Hcs. unfold compute_node_inplace.
  generalize dependent (lit_node (get_fanin_as_literals ntk n) 0).
  generalize dependent (lit_node (get_fanin_as_literals ntk n) 1).
  generalize dependent (lit_node (get_fanin_as_literals ntk n) 2).
  generalize (lit_pol (get_fanin_as_literals ntk n) 0)
    (lit_pol (get_fanin_as_literals ntk n) 1)
    (lit_pol (get_fanin_as_literals ntk n) 2).
  intros p1 p2 p3 n3 n2 n1 Hcs.
  destruct (has_is_xor ntk && is_xor ntk n).
  { injection Hcs as <-.
    apply not_elem_of_cons in Ht as [H1 Ht].
    apply not_elem_of_cons in Ht as [H2 _].
    apply not_eq_sym, N.eqb_neq in H1, H2.
    unfold compute_xor_inplace, mbind, M_bind, mapped. simpl.
    rewrite H1, H2.
    destruct (xorb p1 p2); eexists; reflexivity. }
  destruct (has_is_xor3 ntk && is_xor3 ntk n); [|done].
  destruct (is_constant ntk n1).
  - injection Hcs as <-.
    apply not_elem_of_cons in Ht as [H1 Ht].
    apply not_elem_of_cons in Ht as [H2 _].
    apply not_eq_sym, N.eqb_neq in H1, H2.
    unfold compute_xor_inplace, mbind, M_bind, mapped. simpl.
    rewrite H1, H2.
    destruct (xorb (xorb p1 p2) p3); eexists; reflexivity.
  - injection Hcs as <-.
    apply not_elem_of_cons in Ht as [H1 Ht].
    apply not_elem_of_cons in Ht as [H2 Ht].
    apply not_elem_of_cons in Ht as [H3 _].
    apply not_eq_sym, N.eqb_neq in H1, H2, H3.
    unfold compute_xor3_inplace, mbind, M_bind, mapped. simpl.
    rewrite H1, H2, H3.
    destruct (xorb (xorb p1 p2) p3); eexists; reflexivity.
Qed.

Lemma drive_cons ntk stg_fn st rest s s1 :
  exec_step ntk stg_fn st s = Some (tt, s1) ->
  drive ntk stg_fn (st :: rest) s = drive ntk stg_fn rest s1.
Proof.
  intros E. unfold drive. simpl. unfold mbind at 1, M_bind at 1. by rewrite E.
Qed.

(** C9: when no control of an in-place XOR or XOR3 expansion is the target,
    the step completes, its only trace on the error sink is the diagnostic,
    and the driver goes on with the steps that follow. *)
Theorem mismatch_is_soft ntk stg_fn n a s :
  target_mismatch ntk s n a ->
  exists s1, exec_step ntk stg_fn (n, a) s = Some (tt, s1)
    /\ cerr s1 = cerr s ++ [inplace_mismatch]
    /\ forall rest, drive ntk stg_fn ((n, a) :: rest) s = drive ntk stg_fn rest s1.
Proof.
  intros (t & q & cs & Ha & Hcs & Ht).
  assert (exists s1, exec_step ntk stg_fn (n, a) s = Some (tt, s1)
                     /\ cerr s1 = cerr s ++ [inplace_mismatch]) as (s1 & E & Hc).
  { destruct a as [| |tgt|tgt]; simpl in Ha; try done;
      injection Ha as <- <-.
    - set (s' := State (qnet s)
                   (fun m => if m =? n then node_to_qubit s (index_to_node tgt)
                             else node_to_qubit s m)
                   (free_ancillae s) (st_required_ancillae s) (cerr s)).
      destruct (compute_node_inplace_mismatch ntk n
                  (node_to_qubit s (index_to_node tgt)) s' cs Hcs Ht) as [G EG].
      exists (emit s' G [inplace_mismatch]). split; [|done].
      simpl. unfold mbind, M_bind, mapped, map_node. exact EG.
    - destruct (compute_node_inplace_mismatch ntk n (node_to_qubit s n) s cs Hcs Ht)
        as [G EG].
      exists (emit s G [inplace_mismatch]). split; [|done].
      simpl. unfold mbind, M_bind, mapped. exact EG. }
  exists s1. split; [done|]. split; [done|].
  intros rest. by apply drive_cons.
Qed.

(** ** Compute and uncompute replay the same expansion *)

Lemma emitted_app (m : M unit) s s' G :
  m s = Some (tt, s') -> gates (qnet s') = gates (qnet s) ++ G ->
  emitted m s = Some G.
Proof.
  intros E HG. unfold emitted. rewrite E, HG. by rewrite drop_app_length.
Qed.

Lemma request_ancilla_frame s t s' :
  request_ancilla s = Some (t, s') ->
  gates (qnet s') = gates (qnet s) /\ node_to_qubit s' = node_to_qubit s
  /\ cerr s' = cerr s.
Proof.
  unfold request_ancilla. destruct (free_ancillae s); intros [= <- <-]; done.
Qed.

(** C5: wherever [Uncompute(n)] runs with [n] on the qubit that [Compute(n)]
    gave it and the fan-ins of [n] on the qubits they had then, it emits the
    gate sequence that [Compute(n)] emitted; and [UncomputeInplace] emits the
    gate sequence of [ComputeInplace] in the same way: both directions call
    one expander on the same node and qubit, nothing is inverted. *)
Theorem uncompute_replays_compute ntk stg_fn n a u sC s1 sU :
  uncompute_of a = Some u ->
  exec_step ntk stg_fn (n, a) sC = Some (tt, s1) ->
  same_qubits ntk n sU s1 ->
  emitted (exec_step ntk stg_fn (n, u)) sU
  = emitted (exec_step ntk stg_fn (n, a)) sC.
Proof.
  intros Hu E Hsame.
  apply Forall_cons in Hsame as [Hn Hreads].
  destruct a as [| |target|target]; simpl in Hu; try done; injection Hu as <-.
  - pose proof E as E'. simpl in E'. unfold mbind, M_bind in E'.
    destruct (request_ancilla sC) as [[t sa]|] eqn:Er; [|done].
    apply request_ancilla_frame in Er as (Hg & Hq & _).
    unfold map_node in E'.
    set (sb := State (qnet sa) (fun m => if m =? n then t else node_to_qubit sa m)
                     (free_ancillae sa) (st_required_ancillae sa) (cerr sa)) in E'.
    rewrite compute_node_probe in E'.
    destruct (compute_node ntk stg_fn n t (probe (node_to_qubit sb)))
      as [[[] p]|] eqn:Ep; [|done].
    simpl in E'. injection E' as <-.
    assert (Ht : node_to_qubit sU n = t).
    { rewrite Hn. simpl. by rewrite N.eqb_refl. }
    transitivity (Some (gates (qnet p))).
    + eapply emitted_app.
      * simpl. unfold mbind, M_bind, mapped. rewrite Ht.
        rewrite (compute_node_local ntk stg_fn n t sU (node_to_qubit sb)).
        -- rewrite Ep. reflexivity.
        -- eapply Forall_impl; [exact Hreads|]. simpl. intros x Hx. by rewrite Hx.
      * reflexivity.
    + symmetry. eapply emitted_app; [exact E|]. simpl. by rewrite Hg.
  - pose proof E as E'. simpl in E'. unfold mbind, M_bind, mapped, map_node in E'.
    set (t := node_to_qubit sC (index_to_node target)) in E'.
    set (sb := State (qnet sC) (fun m => if m =? n then t else node_to_qubit sC m)
                     (free_ancillae sC) (st_required_ancillae sC) (cerr sC)) in E'.
    rewrite compute_node_inplace_probe in E'.
    destruct (compute_node_inplace ntk n t (probe (node_to_qubit sb)))
      as [[[] p]|] eqn:Ep; [|done].
    simpl in E'. injection E' as <-.
    assert (Ht : node_to_qubit sU n = t).
    { rewrite Hn. simpl. by rewrite N.eqb_refl. }
    transitivity (Some (gates (qnet p))).
    + eapply emitted_app.
      * simpl. unfold mbind, M_bind, mapped. rewrite Ht.
        rewrite (compute_node_inplace_local ntk n t sU (node_to_qubit sb)).
        -- rewrite Ep. reflexivity.
        -- eapply Forall_impl; [exact Hreads|]. simpl. intros x Hx. by rewrite Hx.
      * reflexivity.
    + symmetry. eapply emitted_app; [exact E|]. reflexivity.
Qed.

(** ** The step streams of the strategies *)

(** C1: whatever limit is configured, the pebbling strategy that [run]
    drives replays the schedule its constructor obtained from the solver
    with the default budget 0; the limit handed over by [set_pebble_limit]
    is stored in [limit_] and read nowhere. *)
Theorem pebble_limit_not_used pebble_solver_man ntk stg_fn ps :
  let pebbling := Pebbling.strategy pebble_solver_man in
  let strategy := @configured_strategy ntk ps _ pebbling in
  @foreach_step _ pebbling strategy = pebble_solver_man ntk 0
  /\ Pebbling.limit_ strategy = pebble_limit ps
  /\ @run ntk stg_fn ps _ pebbling
     = (prepare ntk ;; drive ntk stg_fn (pebble_solver_man ntk 0)).
Proof. repeat split. Qed.

Lemma vec_insert_at {A} (pre post : list A) x :
  vec_insert (pre ++ post) (length pre) x = (pre ++ x :: post, length pre).
Proof. unfold vec_insert. by rewrite take_app_length, drop_app_length. Qed.

Lemma insert_bracket_at b pre post :
  insert_bracket b (pre ++ post, length pre)
  = ((pre ++ [fst b]) ++ from_option (fun u => [u]) [] (snd b) ++ post,
     length (pre ++ [fst b])).
Proof.
  unfold insert_bracket. rewrite vec_insert_at.
  replace (S (length pre)) with (length (pre ++ [fst b]))
    by (rewrite length_app; simpl; lia).
  replace (pre ++ fst b :: post) with ((pre ++ [fst b]) ++ post)
    by (by rewrite <- app_assoc).
  destruct (snd b) as [u|]; simpl; [|done].
  by rewrite vec_insert_at.
Qed.

Lemma foldl_insert_bracket bs pre post :
  foldl (fun st b => insert_bracket b st) (pre ++ post, length pre) bs
  = (pre ++ assemble bs ++ post, length (pre ++ map fst bs)).
Proof.
  revert pre post. induction bs as [|b bs IH]; intros pre post.
  - unfold assemble. simpl. by rewrite app_nil_r.
  - change (foldl (fun st b => insert_bracket b st) (pre ++ post, length pre) (b :: bs))
      with (foldl (fun st b => insert_bracket b st)
                  (insert_bracket b (pre ++ post, length pre)) bs).
    rewrite insert_bracket_at, IH. unfold assemble.
    destruct b as [o [u|]]; simpl; rewrite ?reverse_cons, <- ?app_assoc; simpl;
      rewrite <- ?app_assoc; reflexivity.
Qed.

Lemma bennett_visit_bracket ntk n st :
  Bennett.visit ntk (po_drivers ntk) n st
  = if is_gate ntk n then insert_bracket (out_of_place ntk n) st else st.
Proof.
  unfold Bennett.visit, is_gate, insert_bracket, out_of_place, is_driver.
  destruct st as [steps it].
  destruct (is_constant ntk n || is_pi ntk n); simpl; [done|].
  by destruct (bool_decide (n ∈ po_drivers ntk)).
Qed.

Lemma bennett_fold ntk l st :
  foldl (fun st n => Bennett.visit ntk (po_drivers ntk) n st) st l
  = foldl (fun st b => insert_bracket b st) st
          (map (out_of_place ntk) (gate_nodes ntk l)).
Proof.
  revert st. induction l as [|n l IH]; intros st; [done|].
  simpl. rewrite bennett_visit_bracket, IH.
  by destruct (is_gate ntk n).
Qed.

Lemma bennett_assemble ntk :
  Bennett.bennett_mapping_strategy ntk
  = assemble (map (out_of_place ntk) (gate_nodes ntk (topo_foreach_node ntk))).
Proof.
  unfold Bennett.bennett_mapping_strategy. rewrite bennett_fold.
  rewrite (foldl_insert_bracket _ [] []). simpl. by rewrite app_nil_r.
Qed.

Lemma out_of_place_opening ntk gs :
  map fst (map (out_of_place ntk) gs) = map (fun n => (n, compute_action)) gs.
Proof. by rewrite map_map. Qed.

Lemma out_of_place_closing ntk gs :
  omap snd (map (out_of_place ntk) gs)
  = map (fun n => (n, uncompute_action))
        (List.filter (fun n => negb (is_driver ntk n)) gs).
Proof.
  induction gs as [|n gs IH]; [done|].
  cbn [map List.filter]. unfold out_of_place at 1.
  destruct (is_driver ntk n); cbn [negb]; cbn [omap list_omap snd]; by rewrite IH.
Qed.

Lemma reverse_map {A B} (f : A -> B) (l : list A) :
  reverse (map f l) = map f (reverse l).
Proof. exact (eq_sym (fmap_reverse f l)). Qed.

(** C2 (amended): the Bennett stream is every [Compute] in the order of the
    topological view followed by the [Uncompute] of the gates that are not
    primary-output drivers in the reverse order; [Uncompute(n)] comes after
    [Compute(n)] and after the [Compute] of every later gate. *)
Theorem bennett_stream ntk :
  let gs := gate_nodes ntk (topo_foreach_node ntk) in
  Bennett.bennett_mapping_strategy ntk
  = map (fun n => (n, compute_action)) gs
    ++ map (fun n => (n, uncompute_action))
           (reverse (List.filter (fun n => negb (is_driver ntk n)) gs)).
Proof.
  intros gs. subst gs. rewrite bennett_assemble. unfold assemble.
  rewrite out_of_place_opening, out_of_place_closing.
  by rewrite reverse_map.
Qed.

(** *** The in-place strategy against its rule *)

Lemma to_int32_small n : n < 2 ^ 31 -> to_int32 n = Z.of_N n.
Proof.
  intros Hn. unfold to_int32.
  rewrite Z.mod_small by lia.
  destruct (Z.ltb_spec (Z.of_N n) (2 ^ 31)); lia.
Qed.

Lemma to_uint32_small n : n < 2 ^ 31 -> to_uint32 (Z.of_N n) = n.
Proof.
  intros Hn. unfold to_uint32. rewrite Z.mod_small by lia. apply N2Z.id.
Qed.

Lemma count_down_cons vs f fs :
  count_down vs (f :: fs)
  = let d := BennettInplace.decr_value (get_node f) vs in
    let r := count_down (snd d) fs in
    (fst r, if fst d =? 0 then get_node f :: snd r else snd r).
Proof.
  cbn [count_down].
  destruct (BennettInplace.decr_value (get_node f) vs) as [v vs1].
  cbv zeta. cbn [fst snd].
  by destruct (count_down vs1 fs).
Qed.

Lemma count_down_bound vs fs :
  Forall below_sentinel fs -> Forall (fun z => z < 2 ^ 31) (snd (count_down vs fs)).
Proof.
  revert vs. induction fs as [|f fs IH]; intros vs Hfs; [constructor|].
  apply Forall_cons in Hfs as [Hf Hfs].
  rewrite count_down_cons. cbv zeta. cbn [snd].
  destruct (_ =? 0); [apply Forall_cons; split; [exact Hf|]|]; by apply IH.
Qed.

Lemma visit_fanin_fold vs target fs :
  Forall below_sentinel fs ->
  foldl (fun acc f => BennettInplace.visit_fanin f acc) (vs, target) fs
  = (fst (count_down vs fs),
     if (target =? -1)%Z then first_or_sentinel (snd (count_down vs fs))
     else target).
Proof.
  revert vs target. induction fs as [|f fs IH]; intros vs target Hfs.
  - simpl. by destruct (Z.eqb_spec target (-1)); subst.
  - apply Forall_cons in Hfs as [Hf Hfs].
    rewrite count_down_cons. cbv zeta. cbn [fst snd].
    cbn [foldl]. unfold BennettInplace.visit_fanin at 2.
    destruct (BennettInplace.decr_value (get_node f) vs) as [v vs1].
    cbn [fst snd].
    unfold node_to_index. rewrite (to_int32_small _ Hf).
    destruct (v =? 0).
    + destruct (Z.eqb_spec target (-1)).
      * rewrite IH by done. cbn [first_or_sentinel].
        destruct (Z.eqb_spec (Z.of_N (get_node f)) (-1)); [lia|done].
      * rewrite IH by done.
        destruct (Z.eqb_spec target (-1)); done.
    + by rewrite IH.
Qed.

Lemma inplace_visit_bracket ntk n vs st :
  Forall below_sentinel (foreach_fanin ntk n) ->
  BennettInplace.visit ntk (po_drivers ntk) n (vs, st)
  = if is_gate ntk n then
      (fst (count_down vs (foreach_fanin ntk n)),
       insert_bracket (inplace_rule ntk n (snd (count_down vs (foreach_fanin ntk n)))) st)
    else (vs, st).
Proof.
  intros Hfs. unfold BennettInplace.visit, is_gate. destruct st as [steps it].
  destruct (is_constant ntk n || is_pi ntk n); simpl negb; cbv iota; [done|].
  rewrite visit_fanin_fold by done.
  pose proof (count_down_bound vs _ Hfs) as Hzs.
  destruct (count_down vs (foreach_fanin ntk n)) as [vs' zs]. simpl fst. simpl snd in *.
  change ((-1 =? -1)%Z) with true. cbv iota.
  unfold inplace_rule, out_of_place, is_driver, xor_class, insert_bracket,
    BennettInplace.insert_pair.
  destruct zs as [|z zs]; simpl first_or_sentinel.
  - change ((-1 =? -1)%Z) with true. simpl.
    by destruct (bool_decide (n ∈ po_drivers ntk)).
  - apply Forall_cons in Hzs as [Hz _].
    destruct (Z.eqb_spec (Z.of_N z) (-1)); [lia|].
    rewrite (to_uint32_small _ Hz). unfold node_to_index. simpl.
    destruct (bool_decide (n ∈ po_drivers ntk)); simpl; [done|].
    destruct (has_is_xor ntk && is_xor ntk n); simpl; [done|].
    destruct (has_is_xor3 ntk && is_xor3 ntk n); simpl; done.
Qed.

Lemma inplace_fold ntk l vs st :
  Forall (fun n => Forall below_sentinel (foreach_fanin ntk n)) l ->
  snd (foldl (fun st n => BennettInplace.visit ntk (po_drivers ntk) n st) (vs, st) l)
  = foldl (fun st b => insert_bracket b st) st (inplace_brackets ntk vs l).
Proof.
  revert vs st. induction l as [|n l IH]; intros vs st Hl; [done|].
  apply Forall_cons in Hl as [Hn Hl].
  cbn [foldl inplace_brackets]. rewrite inplace_visit_bracket by done.
  destruct (is_gate ntk n).
  - destruct (count_down vs (foreach_fanin ntk n)) as [vs' zs]. cbn [fst snd foldl].
    by rewrite IH.
  - by rewrite IH.
Qed.

(** C3: the Bennett in-place stream is the nesting of one bracket per gate,
    chosen by the in-place rule: a [ComputeInplace]/[UncomputeInplace] pair
    on the first fan-in whose counter reaches zero exactly when there is such
    a fan-in, the gate is not a primary-output driver and it is an XOR or
    XOR3; [Compute] (with [Uncompute] unless the gate is a driver)
    otherwise. *)
Theorem bennett_inplace_rule ntk :
  Forall (fun n => Forall below_sentinel (foreach_fanin ntk n)) (foreach_node ntk) ->
  BennettInplace.bennett_inplace_mapping_strategy ntk
  = assemble (inplace_brackets ntk (BennettInplace.init_values ntk)
                               (foreach_node ntk)).
Proof.
  intros Hb. unfold BennettInplace.bennett_inplace_mapping_strategy.
  rewrite inplace_fold by done.
  rewrite (foldl_insert_bracket _ [] []). simpl. by rewrite app_nil_r.
Qed.

(** ** Totality *)

Lemma runs_ret {A} (a : A) : runs (mret a).
Proof. intros s. exists a, [], []. by rewrite emit_nil. Qed.

Lemma runs_bind {A B} (m : M A) (f : A -> M B) :
  runs m -> (forall a, runs (f a)) -> runs (m ≫= f).
Proof.
  intros Hm Hf s. destruct (Hm s) as (a & G & D & E).
  destruct (Hf a (emit s G D)) as (b & G' & D' & E').
  exists b, (G ++ G'), (D ++ D').
  unfold mbind, M_bind. by rewrite E, E', emit_emit.
Qed.

Lemma runs_add_gate g : runs (add_gate g).
Proof.
  intros [[nq gs] q fr ra ce]. exists tt, [g], [].
  unfold add_gate, emit; simpl. by rewrite app_nil_r.
Qed.

Lemma runs_cerr_put msg : runs (cerr_put msg).
Proof.
  intros [[nq gs] q fr ra ce]. exists tt, [], [msg].
  unfold cerr_put, emit; simpl. by rewrite app_nil_r.
Qed.

Lemma runs_mapped n : runs (mapped n).
Proof. intros s. exists (node_to_qubit s n), [], []. by rewrite emit_nil. Qed.

Lemma runs_assert : runs (assert true).
Proof. intros s. exists tt, [], []. by rewrite emit_nil. Qed.

Lemma runs_when b m : runs m -> runs (when b m).
Proof. destruct b; simpl; [done|intros; apply runs_ret]. Qed.

Lemma runs_foreach {A} (l : list A) body :
  (forall a, runs (body a)) -> runs (foreach l body).
Proof.
  intros Hb. induction l as [|a l IH]; simpl.
  - apply runs_ret.
  - apply runs_bind; [apply Hb | intros _; apply IH].
Qed.

Create HintDb runs.
#[local] Hint Resolve runs_ret runs_add_gate runs_cerr_put runs_mapped
  runs_assert runs_when runs_foreach : runs.

Ltac solve_runs :=
  repeat first
    [ progress intros
    | apply runs_bind
    | apply runs_when
    | apply runs_foreach
    | solve [auto with runs]
    | match goal with
      | |- runs (if ?b then _ else _) => destruct b
      end ].

Lemma get_fanin_as_qubits_runs ntk n :
  forallb (fun f => negb (is_complemented f)) (foreach_fanin ntk n) = true ->
  runs (get_fanin_as_qubits ntk n).
Proof.
  unfold get_fanin_as_qubits.
  generalize (foreach_fanin ntk n) as fs.
  assert (Hacc : runs (mret [] : M (list qubit))) by apply runs_ret.
  revert Hacc. generalize (mret [] : M (list qubit)) as acc.
  intros acc Hacc fs. revert acc Hacc.
  induction fs as [|f fs IH]; intros acc Hacc Hfs; simpl; [done|].
  simpl in Hfs. apply andb_prop in Hfs as [Hf Hfs].
  apply IH; [|done]. rewrite Hf. solve_runs.
Qed.

Lemma compute_node_runs ntk stg_fn n t :
  expander_defined ntk n = true -> runs (compute_node ntk stg_fn n t).
Proof.
  unfold expander_defined, dispatch, compute_node, compute_and, compute_or,
    compute_xor, compute_xor3, compute_maj, compute_xor_block, compute_lut.
  intros Hd.
  destruct (has_is_and ntk && is_and ntk n); [solve_runs|].
  destruct (has_is_or ntk && is_or ntk n); [solve_runs|].
  destruct (has_is_xor ntk && is_xor ntk n); [solve_runs|].
  destruct (has_is_xor3 ntk && is_xor3 ntk n); [solve_runs|].
  destruct (has_is_maj ntk && is_maj ntk n); [solve_runs|].
  destruct (has_node_function ntk); [|solve_runs].
  pose proof (get_fanin_as_qubits_runs ntk n Hd).
  solve_runs.
Qed.

Section Completes.
Context (P : relation impl_state) (HP : PreOrder P).

Lemma completes_ret {A} (a : A) : completes P (mret a).
Proof. intros s. exists a, s. split; [done|reflexivity]. Qed.

Lemma completes_bind {A B} (m : M A) (f : A -> M B) :
  completes P m -> (forall a, completes P (f a)) -> completes P (m ≫= f).
Proof.
  intros Hm Hf s. destruct (Hm s) as (a & s1 & E & H1).
  destruct (Hf a s1) as (b & s2 & E' & H2).
  exists b, s2. unfold mbind, M_bind. rewrite E, E'.
  split; [done|]. by transitivity s1.
Qed.

Lemma completes_when b m : completes P m -> completes P (when b m).
Proof. destruct b; simpl; [done|intros; apply completes_ret]. Qed.

Lemma completes_foreach {A} (l : list A) body :
  (forall a, completes P (body a)) -> completes P (foreach l body).
Proof.
  intros Hb. induction l as [|a l IH]; simpl.
  - apply completes_ret.
  - apply completes_bind; [apply Hb | intros _; apply IH].
Qed.

Lemma completes_runs {A} (m : M A) :
  (forall s G D, P s (emit s G D)) -> runs m -> completes P m.
Proof.
  intros Hemit Hm s. destruct (Hm s) as (a & G & D & E).
  exists a, (emit s G D). split; [done|apply Hemit].
Qed.
End Completes.

Ltac solve_completes P :=
  repeat first
    [ assumption
    | apply (completes_ret P _)
    | apply (completes_bind P _); [|intros ?]
    | apply (completes_when P _)
    | apply (completes_foreach P _); intros ?
    | match goal with
      | |- completes _ (if ?b then _ else _) => destruct b
      end
    | solve [auto] ].

#[local] Instance pool_kept_preorder : PreOrder pool_kept.
Proof.
  split.
  - intros s. by split.
  - intros s1 s2 s3 [H1 H2] [H3 H4]. split; congruence.
Qed.

Lemma pool_kept_emit s G D : pool_kept s (emit s G D).
Proof. by split. Qed.

Lemma prepare_keeps_pool ntk : completes pool_kept (prepare ntk).
Proof.
  assert (Hq : completes pool_kept qnet_num_qubits).
  { intros s. exists (num_qubits (qnet s)), s. split; [done|reflexivity]. }
  assert (Hm : forall n q, completes pool_kept (map_node n q)).
  { intros n q s. eexists _, _. split; [reflexivity|]. by split. }
  assert (Ha : completes pool_kept add_qubit).
  { intros s. eexists _, _. split; [reflexivity|]. by split. }
  assert (Hg : forall g, completes pool_kept (add_gate g)).
  { intros g. apply (completes_runs pool_kept _);
      [apply pool_kept_emit|apply runs_add_gate]. }
  assert (Hr : forall n, completes pool_kept (mapped n)).
  { intros n. apply (completes_runs pool_kept _);
      [apply pool_kept_emit|apply runs_mapped]. }
  unfold prepare, prepare_inputs, prepare_constant.
  solve_completes pool_kept.
Qed.

Section PoolOfBennett.
Variable ntk : LogicNetwork.
Variable stg_fn : truth_table -> list qubit -> list gate.





Lemma drive_app l1 l2 s s1 :
  drive ntk stg_fn l1 s = Some (tt, s1) ->
  drive ntk stg_fn (l1 ++ l2) s = drive ntk stg_fn l2 s1.
Proof.
  revert s. induction l1 as [|st l1 IH]; intros s E.
  - injection E as <-. done.
  - unfold drive in *. simpl in *. unfold mbind, M_bind in *.
    destruct (exec_step ntk stg_fn st s) as [[[] s']|]; [|done].
    by apply IH.
Qed.

End PoolOfBennett.



(** ** The pool invariant *)

Lemma pool_inv_emit L s G D : pool_inv L s -> pool_inv L (emit s G D).
Proof. intros [H1 H2 H3 H4 H5]. by constructor. Qed.

Lemma pool_inv_proper L L' s :
  (forall x, x ∈ L' -> x ∈ L) -> pool_inv L s -> pool_inv L' s.
Proof.
  intros Hsub [H1 H2 H3 H4 H5]. constructor; auto.
  intros n Hn. apply H4. auto.
Qed.

(** Putting a node that is not yet accounted for on a fresh qubit. *)
Lemma pool_inv_fresh L s n :
  pool_inv L s -> n ∉ L ->
  pool_inv (n :: L)
    (State (QNet (num_qubits (qnet s) + 1) (gates (qnet s)))
           (fun m => if m =? n then num_qubits (qnet s) else node_to_qubit s m)
           (free_ancillae s) (st_required_ancillae s) (cerr s)).
Proof.
  intros [H1 H2 H3 H4 H5] Hn.
  assert (Hother : forall m, m ∈ L -> (m =? n) = false).
  { intros m Hm. apply N.eqb_neq. intros ->. done. }
  constructor; simpl.
  - done.
  - intros q Hq. specialize (H2 q Hq). lia.
  - intros m [->|Hm]%elem_of_cons.
    + rewrite N.eqb_refl. lia.
    + rewrite (Hother m Hm). specialize (H3 m Hm). lia.
  - intros m [->|Hm]%elem_of_cons; simpl.
    + rewrite N.eqb_refl. intros Hq. specialize (H2 _ Hq). lia.
    + rewrite (Hother m Hm). by apply H4.
  - intros a b [->|Ha]%elem_of_cons [->|Hb]%elem_of_cons;
      rewrite ?N.eqb_refl, ?(Hother _ Ha), ?(Hother _ Hb); try done.
    + intros E. specialize (H3 b Hb). lia.
    + intros E. specialize (H3 a Ha). lia.
    + by apply H5.
Qed.

Lemma pool_inv_ext L s s' :
  num_qubits (qnet s') = num_qubits (qnet s) ->
  free_ancillae s' = free_ancillae s ->
  (forall n, n ∈ L -> node_to_qubit s' n = node_to_qubit s n) ->
  pool_inv L s -> pool_inv L s'.
Proof.
  intros Hnq Hfree Hq [H1 H2 H3 H4 H5].
  constructor; rewrite ?Hnq, ?Hfree; auto.
  - intros n Hn. rewrite (Hq n Hn). auto.
  - intros n Hn. rewrite Hfree, (Hq n Hn). by apply H4.
  - intros n m Hn Hm. rewrite (Hq n Hn), (Hq m Hm). auto.
Qed.

(** Taking a qubit from the pool, or a fresh one, for a node that has none. *)
Lemma pool_inv_request L s n t s1 :
  pool_inv L s -> n ∉ L ->
  request_ancilla s = Some (t, s1) ->
  pool_inv (n :: L)
    (State (qnet s1) (fun m => if m =? n then t else node_to_qubit s1 m)
           (free_ancillae s1) (st_required_ancillae s1) (cerr s1)).
Proof.
  intros Hinv Hn. unfold request_ancilla.
  destruct (free_ancillae s) as [|r rest] eqn:Hfree; intros [= <- <-]; simpl.
  - eapply pool_inv_ext; [| | |apply (pool_inv_fresh L s n Hinv Hn)]; simpl; done.
  - destruct Hinv as [H1 H2 H3 H4 H5]. rewrite Hfree in *.
    apply NoDup_cons in H1 as [Hr Hrest].
    assert (Hother : forall m, m ∈ L -> (m =? n) = false).
    { intros m Hm. apply N.eqb_neq. intros ->. done. }
    assert (Hapart : forall m, m ∈ L -> node_to_qubit s m <> r /\ node_to_qubit s m ∉ rest).
    { intros m Hm. specialize (H4 m Hm). rewrite Hfree in H4.
      apply not_elem_of_cons in H4. done. }
    constructor; simpl.
    + done.
    + intros q Hq. apply H2. by right.
    + intros m [->|Hm]%elem_of_cons.
      * rewrite N.eqb_refl. apply H2. left.
      * rewrite (Hother m Hm). by apply H3.
    + intros m [->|Hm]%elem_of_cons; simpl.
      * by rewrite N.eqb_refl.
      * rewrite (Hother m Hm). by apply Hapart.
    + intros a b [->|Ha]%elem_of_cons [->|Hb]%elem_of_cons;
        rewrite ?N.eqb_refl, ?(Hother _ Ha), ?(Hother _ Hb); try done.
      * intros E. by destruct (Hapart b Hb) as [Hne _].
      * intros E. by destruct (Hapart a Ha) as [Hne _].
      * by apply H5.
Qed.

(** Returning the qubit of a node to the pool and forgetting the node. *)
Lemma pool_inv_release L L' s n :
  pool_inv L s -> n ∈ L ->
  (forall x, x ∈ L' -> x ∈ L /\ x <> n) ->
  pool_inv L'
    (State (qnet s) (node_to_qubit s) (node_to_qubit s n :: free_ancillae s)
           (st_required_ancillae s) (cerr s)).
Proof.
  intros [H1 H2 H3 H4 H5] Hn Hsub.
  constructor; simpl.
  - apply NoDup_cons. split; [by apply H4|done].
  - intros q [->|Hq]%elem_of_cons; auto.
  - intros m Hm. apply H3. by apply Hsub.
  - intros m Hm. simpl. destruct (Hsub m Hm) as [HmL Hne].
    apply not_elem_of_cons. split; [|by apply H4].
    intros E. apply Hne. by apply H5.
  - intros a b Ha Hb. apply H5; by apply Hsub.
Qed.

Section PoolInvariant.
Variable ntk : LogicNetwork.
Variable stg_fn : truth_table -> list qubit -> list gate.
Variable fixed : list node.

Lemma exec_step_inv owners st s s' :
  step_paired fixed owners st = true ->
  loop_inv fixed owners s ->
  exec_step ntk stg_fn st s = Some (tt, s') ->
  loop_inv fixed (track owners st) s'.
Proof.
  intros Hp [Hinv Hdisj] E. destruct st as [n [| |tgt|tgt]]; simpl in *.
  - (* compute *)
    apply andb_prop in Hp as [Hf Ho].
    apply negb_true_iff, bool_decide_eq_false in Hf, Ho.
    unfold mbind, M_bind in E.
    destruct (request_ancilla s) as [[t s1]|] eqn:Er; [|done].
    unfold map_node in E.
    destruct (local_frame _ _ _ _ _ (compute_node_local ntk stg_fn n t) E)
      as (G & D & ->).
    split.
    + apply pool_inv_emit.
      eapply pool_inv_proper; [|eapply (pool_inv_request (fixed ++ owners) s n)];
        [|done| |done].
      * intros x. rewrite !elem_of_app, !elem_of_cons, elem_of_app. tauto.
      * rewrite elem_of_app. tauto.
    + intros m [->|Hm]%elem_of_cons; auto.
  - (* uncompute *)
    apply bool_decide_eq_true in Hp.
    unfold mbind, M_bind, mapped in E.
    destruct (compute_node ntk stg_fn n (node_to_qubit s n) s)
      as [[[] s1]|] eqn:Ec; [|done].
    destruct (local_frame _ _ _ _ _ (compute_node_local ntk stg_fn n _) Ec)
      as (G & D & ->).
    injection E as <-. split.
    + apply (pool_inv_release (fixed ++ owners) _ (emit s G D) n).
      * by apply pool_inv_emit.
      * rewrite elem_of_app. by right.
      * intros x. rewrite !elem_of_app, list_elem_of_filter.
        intros [Hx|[Hne Hx]]; [|tauto].
        split; [tauto|]. intros ->. by apply (Hdisj n).
    + intros m [_ Hm]%list_elem_of_filter. auto.
  - (* compute in place *)
    apply andb_prop in Hp as [Hf Ho].
    apply negb_true_iff, bool_decide_eq_false in Hf, Ho.
    unfold mbind, M_bind, mapped, map_node in E.
    destruct (local_frame _ _ _ _ _ (compute_node_inplace_local ntk n _) E)
      as (G & D & ->).
    split; [|done]. apply pool_inv_emit.
    eapply pool_inv_ext; [| | |exact Hinv]; simpl; try done.
    intros m Hm. destruct (N.eqb_spec m n) as [->|]; [|done].
    apply elem_of_app in Hm. tauto.
  - (* uncompute in place *)
    unfold mbind, M_bind, mapped in E.
    destruct (local_frame _ _ _ _ _ (compute_node_inplace_local ntk n _) E)
      as (G & D & ->).
    split; [|done]. by apply pool_inv_emit.
Qed.

Lemma drive_inv steps owners s s' :
  well_paired fixed owners steps = true ->
  loop_inv fixed owners s ->
  drive ntk stg_fn steps s = Some (tt, s') ->
  loop_inv fixed (foldl track owners steps) s'.
Proof.
  revert owners s. induction steps as [|st steps IH]; intros owners s Hw Hinv E.
  - injection E as <-. done.
  - simpl in Hw. apply andb_prop in Hw as [Hp Hw].
    unfold drive in E. simpl in E. unfold mbind at 1, M_bind at 1 in E.
    destruct (exec_step ntk stg_fn st s) as [[[] s1]|] eqn:E1; [|done].
    simpl. eapply IH; [done| |exact E].
    by eapply exec_step_inv.
Qed.

Lemma well_paired_take owners steps k :
  well_paired fixed owners steps = true ->
  well_paired fixed owners (take k steps) = true.
Proof.
  revert owners k. induction steps as [|st steps IH]; intros owners [|k] Hw;
    simpl in *; try done.
  apply andb_prop in Hw as [Hp Hw]. rewrite Hp. simpl. by apply IH.
Qed.

End PoolInvariant.

(** *** The Bennett stream respects the pairing *)

Lemma well_paired_app fixed owners l1 l2 :
  well_paired fixed owners (l1 ++ l2)
  = well_paired fixed owners l1 && well_paired fixed (foldl track owners l1) l2.
Proof.
  revert owners. induction l1 as [|st l1 IH]; intros owners; simpl; [done|].
  by rewrite IH, andb_assoc.
Qed.

Lemma well_paired_computes fixed gs : forall owners,
  NoDup gs -> (forall n, n ∈ gs -> (n ∉ fixed) /\ (n ∉ owners)) ->
  well_paired fixed owners (map (fun n => (n, compute_action)) gs) = true
  /\ foldl track owners (map (fun n => (n, compute_action)) gs)
     = reverse gs ++ owners.
Proof.
  induction gs as [|n gs IH]; intros owners Hnd Hout; simpl; [done|].
  apply NoDup_cons in Hnd as [Hn Hnd].
  destruct (Hout n) as [Hf Ho]; [left|].
  destruct (IH (n :: owners) Hnd) as [Hw Ht].
  { intros m Hm. destruct (Hout m) as [Hmf Hmo]; [by right|].
    split; [done|]. intros [->|?]%elem_of_cons; done. }
  rewrite Hw, Ht, reverse_cons, <- app_assoc.
  by rewrite !bool_decide_eq_false_2.
Qed.

Lemma well_paired_uncomputes fixed us : forall owners,
  NoDup us -> (forall n, n ∈ us -> n ∈ owners) ->
  well_paired fixed owners (map (fun n => (n, uncompute_action)) us) = true.
Proof.
  induction us as [|n us IH]; intros owners Hnd Hin; simpl; [done|].
  apply NoDup_cons in Hnd as [Hn Hnd].
  rewrite bool_decide_eq_true_2 by (apply Hin; left). simpl.
  apply IH; [done|]. intros m Hm.
  apply list_elem_of_filter. split; [by intros ->|]. apply Hin. by right.
Qed.

(** When the topological view lists every gate once and no gate is a
    prepared node, the Bennett stream respects the pairing. *)
Lemma bennett_well_paired ntk :
  let gs := gate_nodes ntk (topo_foreach_node ntk) in
  NoDup gs -> (forall n, n ∈ gs -> n ∉ prepared_nodes ntk) ->
  well_paired (prepared_nodes ntk) [] (Bennett.bennett_mapping_strategy ntk)
  = true.
Proof.
  intros gs Hnd Hfixed.
  rewrite bennett_assemble. unfold assemble.
  rewrite out_of_place_opening, out_of_place_closing, reverse_map.
  fold gs. rewrite well_paired_app.
  destruct (well_paired_computes (prepared_nodes ntk) gs [] Hnd) as [Hw Ht].
  { intros n Hn. split; [by apply Hfixed|]. apply not_elem_of_nil. }
  rewrite Hw, Ht, app_nil_r. simpl.
  apply well_paired_uncomputes.
  - rewrite reverse_Permutation. apply NoDup_ListNoDup, List.NoDup_filter.
    by apply NoDup_ListNoDup.
  - intros n Hn. rewrite elem_of_reverse in Hn. rewrite elem_of_reverse.
    apply list_elem_of_In, filter_In in Hn as [Hn _]. by apply list_elem_of_In.
Qed.

(** *** [prepare] establishes the invariant *)

Lemma prepare_inputs_inv pis : forall L s s',
  pool_inv L s -> NoDup pis -> (forall n, n ∈ pis -> n ∉ L) ->
  foreach pis (fun n => q ← qnet_num_qubits; map_node n q;; add_qubit) s
    = Some (tt, s') ->
  pool_inv (L ++ pis) s'.
Proof.
  induction pis as [|n pis IH]; intros L s s' Hinv Hnd Hfresh E.
  - injection E as <-. by rewrite app_nil_r.
  - apply NoDup_cons in Hnd as [Hn Hnd].
    simpl in E. unfold mbind at 1, M_bind at 1 in E.
    unfold mbind at 1, M_bind at 1 in E. simpl in E.
    eapply pool_inv_proper; [|eapply (IH (n :: L)); [| | |exact E]].
    + intros x. rewrite !elem_of_app, !elem_of_cons. tauto.
    + apply pool_inv_fresh; [done|]. apply Hfresh. left.
    + done.
    + intros m Hm [->|HmL]%elem_of_cons; [done|].
      apply (Hfresh m); [by right|done].
Qed.

Lemma prepare_constant_inv ntk v L s s' :
  let n := get_node (get_constant ntk v) in
  pool_inv L s ->
  (fanout_size ntk n =? 0) = false -> n ∉ L ->
  prepare_constant ntk v s = Some (tt, s') ->
  pool_inv (L ++ [n]) s'.
Proof.
  intros n Hinv Hfo Hn E. unfold prepare_constant in E. fold n in E.
  rewrite Hfo in E.
  unfold mbind, M_bind in E. simpl in E.
  eapply pool_inv_proper with (L := n :: L).
  { intros x. rewrite elem_of_app, !elem_of_cons, elem_of_nil. tauto. }
  destruct (xorb _ _); simpl in E; injection E as <-.
  - eapply pool_inv_ext; [| | |apply (pool_inv_fresh L s n Hinv Hn)]; done.
  - by apply pool_inv_fresh.
Qed.

Lemma prepare_constant_skip ntk v s :
  (fanout_size ntk (get_node (get_constant ntk v)) =? 0) = true ->
  prepare_constant ntk v s = Some (tt, s).
Proof. intros Hfo. unfold prepare_constant. by rewrite Hfo. Qed.

Lemma prepare_inv ntk s s' :
  free_ancillae s = [] -> NoDup (prepared_nodes ntk) ->
  prepare ntk s = Some (tt, s') ->
  pool_inv (prepared_nodes ntk) s'.
Proof.
  intros Hfree Hnd E.
  assert (H0 : pool_inv [] s).
  { constructor; rewrite ?Hfree; try (intros ? []%elem_of_nil); try constructor.
    intros n m []%elem_of_nil. }
  unfold prepare in E. unfold mbind at 1, M_bind at 1 in E.
  destruct (prepare_inputs ntk s) as [[[] s1]|] eqn:E1; [|done].
  apply (prepare_inputs_inv _ [] s s1 H0) in E1;
    [|by apply NoDup_app in Hnd as [? _] | intros ? _ []%elem_of_nil].
  simpl in E1.
  unfold mbind at 1, M_bind at 1 in E.
  destruct (prepare_constant ntk false s1) as [[[] s2]|] eqn:E2; [|done].
  unfold prepared_nodes in *. cbv zeta in *.
  set (n0 := get_node (get_constant ntk false)) in *.
  set (n1 := get_node (get_constant ntk true)) in *.
  apply NoDup_app in Hnd as (Hpis & Hdisj & Hnd).
  apply NoDup_app in Hnd as (Hc0 & Hdisj' & Hc1).
  assert (Hs2 : pool_inv (foreach_pi ntk
                          ++ (if fanout_size ntk n0 =? 0 then [] else [n0])) s2).
  { destruct (fanout_size ntk n0 =? 0) eqn:Hfo.
    - rewrite prepare_constant_skip in E2 by done. injection E2 as <-.
      by rewrite app_nil_r.
    - eapply (prepare_constant_inv ntk false); [exact E1|done| |exact E2].
      intros Hin. apply (Hdisj n0 Hin). apply elem_of_app. left. left. }
  rewrite app_assoc.
  destruct (negb (n0 =? n1)) eqn:Hne; simpl in E.
  - destruct (fanout_size ntk n1 =? 0) eqn:Hfo.
    + rewrite prepare_constant_skip in E by done. injection E as <-.
      by rewrite app_nil_r.
    + eapply (prepare_constant_inv ntk true); [exact Hs2|done| |exact E].
      rewrite elem_of_app. intros [Hin|Hin].
      * apply (Hdisj n1 Hin). apply elem_of_app. right. left.
      * apply (Hdisj' n1 Hin). left.
  - injection E as <-. by rewrite app_nil_r.
Qed.

Lemma after_prefix_succ ntk stg_fn steps k st s0 s :
  steps !! k = Some st ->
  after_prefix ntk stg_fn steps k s0 = Some (tt, s) ->
  after_prefix ntk stg_fn steps (S k) s0 = exec_step ntk stg_fn st s.
Proof.
  intros Hst E. unfold after_prefix in *. unfold mbind at 1, M_bind at 1 in E.
  unfold mbind at 1, M_bind at 1.
  destruct (prepare ntk s0) as [[[] s1]|]; [|done].
  rewrite (take_S_r _ _ _ Hst).
  rewrite (drive_app _ _ _ _ _ _ E).
  unfold drive. simpl. unfold mbind, M_bind.
  by destruct (exec_step ntk stg_fn st s) as [[[] s2]|].
Qed.

(** C6 (amended): at every prefix of a run whose steps respect the pairing,
    no qubit of the free pool is the NodeToQubit entry of a node that is
    materialised then: a primary input, a constant with fan-out or a gate
    computed on an ancilla and not yet uncomputed.  When the next step is
    [Uncompute(n)], it pushes the qubit of [n] on the pool and leaves the
    map as it is: the entry of [n] stays behind. *)
Theorem pool_apart_from_live ntk stg_fn steps k s0 s :
  free_ancillae s0 = [] ->
  NoDup (prepared_nodes ntk) ->
  well_paired (prepared_nodes ntk) [] steps = true ->
  after_prefix ntk stg_fn steps k s0 = Some (tt, s) ->
  pool_apart s (prepared_nodes ntk ++ owners_after (take k steps))
  /\ (forall n s',
        steps !! k = Some (n, uncompute_action) ->
        after_prefix ntk stg_fn steps (S k) s0 = Some (tt, s') ->
        free_ancillae s' = node_to_qubit s n :: free_ancillae s
        /\ node_to_qubit s' = node_to_qubit s).
Proof.
  intros Hfree Hnd Hw E. split.
  - unfold after_prefix in E. unfold mbind, M_bind in E.
    destruct (prepare ntk s0) as [[[] s1]|] eqn:E1; [|done].
    apply prepare_inv in E1; [|done..].
    apply (drive_inv ntk stg_fn (prepared_nodes ntk) (take k steps) [] s1 s) in E.
    + destruct E as [Hinv _]. apply (inv_apart _ _ Hinv).
    + by apply well_paired_take.
    + split; [by rewrite app_nil_r|]. intros n []%elem_of_nil.
  - intros n s' Hst E2.
    rewrite (after_prefix_succ _ _ _ _ _ _ _ Hst E) in E2.
    simpl in E2. unfold mbind, M_bind, mapped in E2.
    destruct (compute_node ntk stg_fn n (node_to_qubit s n) s)
      as [[[] s3]|] eqn:Ec; [|done].
    destruct (local_frame _ _ _ _ _ (compute_node_local ntk stg_fn n _) Ec)
      as (G & D & ->).
    injection E2 as <-. done.
Qed.

(** ** The theorems on the example networks *)

Import Examples.

(** The streams and the final state that the lemmas below refer to. *)

Example bennett_stream_and_chain :
  Bennett.bennett_mapping_strategy and_chain
  = [(3, compute_action); (4, compute_action); (5, compute_action);
     (4, uncompute_action); (3, uncompute_action)].
Proof. vm_compute. reflexivity. Qed.

Example bennett_inplace_stream_xmg :
  BennettInplace.bennett_inplace_mapping_strategy xmg
  = [(4, compute_action); (5, compute_action); (6, compute_inplace_action 0);
     (7, compute_action); (6, uncompute_inplace_action 0);
     (5, uncompute_action); (4, uncompute_action)].
Proof. vm_compute. reflexivity. Qed.

Example bennett_run_and_chain :
  let s := state_of (run and_chain no_stg default_ps (H := Bennett.strategy) start) in
  free_ancillae s = [2; 3]
  /\ map (node_to_qubit s) [1; 2; 3; 4; 5] = [0; 1; 2; 3; 4]
  /\ num_qubits (qnet s) = 5
  /\ st_required_ancillae s = 3.
Proof. vm_compute. repeat split. Qed.

Example bennett_inplace_stream_xmg_paired :
  well_paired (prepared_nodes xmg) []
              (BennettInplace.bennett_inplace_mapping_strategy xmg) = true.
Proof. vm_compute. reflexivity. Qed.

(** C2: in the Bennett stream of [and_chain], gate 3 is no output driver and
    its [Uncompute] does not come right after its [Compute]. *)
Lemma bennett_uncompute_not_adjacent : ~ uncompute_follows_at_once and_chain.
Proof.
  intros H. destruct (H 3) as (i & Hc & Hu).
  - apply list_elem_of_In. vm_compute. tauto.
  - reflexivity.
  - assert (Hs : Bennett.bennett_mapping_strategy and_chain
                 = [(3, compute_action); (4, compute_action); (5, compute_action);
                    (4, uncompute_action); (3, uncompute_action)])
      by (vm_compute; reflexivity).
    rewrite Hs in Hc, Hu.
    do 6 (destruct i as [|i]; simpl in Hc, Hu; try discriminate).
Qed.

(** C3 on [xmg]: gate 6 is computed in place on its first fan-in, the other
    gates out of place. *)
Lemma bennett_inplace_rule_xmg :
  BennettInplace.bennett_inplace_mapping_strategy xmg
  = assemble (inplace_brackets xmg (BennettInplace.init_values xmg)
                               (foreach_node xmg)).
Proof.
  apply (bennett_inplace_rule xmg).
  repeat constructor.
Defined.



(** C5 on [and_chain]: the [Uncompute] of gate 3, run after gate 4 was
    computed too, emits what the [Compute] of gate 3 emitted. *)
Lemma uncompute_replays_compute_and_chain :
  let sC := state_of (prepare and_chain start) in
  let s1 := state_of (exec_step and_chain no_stg (3, compute_action) sC) in
  let sU := state_of (exec_step and_chain no_stg (4, compute_action) s1) in
  emitted (exec_step and_chain no_stg (3, uncompute_action)) sU
  = emitted (exec_step and_chain no_stg (3, compute_action)) sC.
Proof.
  intros sC s1 sU.
  apply (uncompute_replays_compute and_chain no_stg 3 compute_action
           uncompute_action sC s1 sU).
  - reflexivity.
  - reflexivity.
  - repeat constructor.
Defined.

(** C6: after the whole Bennett run on [and_chain], qubit 2 is in the pool
    and is still the entry of gate 3. *)
Lemma uncompute_leaves_entry_behind :
  ~ pool_apart_from_map and_chain no_stg
      (Bennett.bennett_mapping_strategy and_chain) start.
Proof.
  intros H.
  pose (s := state_of (after_prefix and_chain no_stg
                         (Bennett.bennett_mapping_strategy and_chain) 5 start)).
  assert (E : after_prefix and_chain no_stg
                (Bennett.bennett_mapping_strategy and_chain) 5 start
              = Some (tt, s)) by (vm_compute; reflexivity).
  apply (H 5%nat s E 3).
  - apply list_elem_of_In. vm_compute. tauto.
  - apply list_elem_of_In. vm_compute. tauto.
Qed.

(** C6 (amended) on [and_chain]: after four steps of the Bennett run the
    pool is apart from the live entries, and the fifth step, the
    [Uncompute] of gate 3, pushes its qubit and keeps the map. *)
Lemma pool_apart_from_live_and_chain :
  let steps := Bennett.bennett_mapping_strategy and_chain in
  let s4 := state_of (after_prefix and_chain no_stg steps 4 start) in
  let s5 := state_of (after_prefix and_chain no_stg steps 5 start) in
  pool_apart s4 (prepared_nodes and_chain ++ owners_after (take 4 steps))
  /\ free_ancillae s5 = node_to_qubit s4 3 :: free_ancillae s4
  /\ node_to_qubit s5 = node_to_qubit s4.
Proof.
  intros steps s4 s5.
  destruct (pool_apart_from_live and_chain no_stg steps 4 start s4) as [Ha Hb].
  - reflexivity.
  - vm_compute. repeat constructor; rewrite ?elem_of_cons, ?elem_of_nil; lia.
  - vm_compute. reflexivity.
  - vm_compute. reflexivity.
  - split; [exact Ha|]. apply (Hb 3 s5).
    + vm_compute. reflexivity.
    + vm_compute. reflexivity.
Defined.

(** C7 on [xmg]: gate 4 has the complemented constant as first fan-in and
    expands to the OR gadget on inputs 1 and 2. *)
Lemma maj_expansion_xmg :
  compute_node xmg no_stg 4 9 identity_state
  = Some (tt, emit identity_state [X 1; MCX [1; 2] [9]; X 9; X 1] []).
Proof.
  exact (maj_expansion xmg no_stg 4 (Signal 0 true) (Signal 1 false)
           (Signal 2 true) 9 identity_state
           eq_refl eq_refl eq_refl eq_refl eq_refl).
Defined.



(** C9 on [xmg]: the in-place step of gate 6 targets the qubit of the
    constant, which is none of the controls compared; the step completes
    with the diagnostic and the run goes on. *)
Lemma mismatch_is_soft_xmg :
  let s := state_of (drive xmg no_stg [(4, compute_action); (5, compute_action)]
                       (state_of (prepare xmg start))) in
  exists s1, exec_step xmg no_stg (6, compute_inplace_action 0) s = Some (tt, s1)
    /\ cerr s1 = cerr s ++ [inplace_mismatch]
    /\ forall rest, drive xmg no_stg ((6, compute_inplace_action 0) :: rest) s
                    = drive xmg no_stg rest s1.
Proof.
  intros s.
  apply (mismatch_is_soft xmg no_stg 6 (compute_inplace_action 0) s).
  eexists _, _, _. split; [reflexivity|]. split; [reflexivity|].
  intros Hin. apply list_elem_of_In in Hin. vm_compute in Hin.
  intuition discriminate.
Defined.

(** C10 with controls 0, 1 and 2 and target 3. *)
Lemma mismatch_still_inverts_example :
  (compute_xor_inplace 0 1 true 3 identity_state
     = (cerr_put inplace_mismatch ;; add_gate (X 3)) identity_state
   /\ compute_xor_inplace 0 1 true 3 identity_state
      = Some (tt, emit identity_state [X 3] [inplace_mismatch]))
  /\ (compute_xor3_inplace 0 1 2 true 3 identity_state
        = (cerr_put inplace_mismatch ;; add_gate (X 3)) identity_state
      /\ compute_xor3_inplace 0 1 2 true 3 identity_state
         = Some (tt, emit identity_state [X 3] [inplace_mismatch])).
Proof.
  destruct (mismatch_still_inverts 0 1 2 3 identity_state) as [Hx Hx3];
    [lia|lia|].
  split; [exact Hx|]. apply Hx3. lia.
Defined.

(** * Further properties of the driver and of the strategies *)

(** ** Literals *)

(** X1: decoding the literal of a fan-in gives back its polarity bit and its
    node index modulo [2^31]: the node itself when the index fits in 31
    bits, a wrapped index beyond. *)
Theorem literal_decode f :
  index_to_node (N.shiftr (literal f) 1) = get_node f mod 2 ^ 31
  /\ negb (N.land (literal f) 1 =? 0) = is_complemented f.
Proof.
  split; [|apply literal_polarity].
  { rewrite literal_eq. unfold index_to_node.
    rewrite N.shiftr_div_pow2. change (2 ^ 1) with 2.
    change (2 ^ 32) with (2 * 2 ^ 31).
    rewrite N.Div0.mod_mul_r.
    assert (Hb : (2 * get_node f + N.b2n (is_complemented f)) mod 2
                 = N.b2n (is_complemented f)).
    { rewrite N.add_comm, N.mul_comm, N.Div0.mod_add.
      by destruct (is_complemented f). }
    assert (Hd : (2 * get_node f + N.b2n (is_complemented f)) / 2 = get_node f).
    { destruct (is_complemented f); simpl N.b2n.
      - rewrite N.add_comm, N.mul_comm, N.div_add by lia. reflexivity.
      - rewrite N.add_0_r, N.mul_comm, N.div_mul by lia. reflexivity. }
    rewrite Hb, Hd.
    rewrite (N.mul_comm 2 (get_node f mod 2 ^ 31)), N.div_add by lia.
    by destruct (is_complemented f). }
Qed.

(** ** The expansion of the other gate kinds *)

Ltac dispatch_inv H :=
  unfold dispatch in H;
  repeat match type of H with
         | context [if ?b then _ else _] => destruct b eqn:?
         end;
  try discriminate H.

Ltac rewrite_conditions :=
  repeat match goal with
         | E : ?b = _ |- context [if ?b then _ else _] => rewrite E
         end.

(** X2: an AND gate expands to the Toffoli on the qubits of its two fan-ins
    between the X flips of the complemented fan-ins, undone in reverse
    order. *)
Theorem and_expansion ntk stg_fn n f1 f2 t s :
  dispatch ntk n = ExpAnd ->
  foreach_fanin ntk n = [f1; f2] ->
  fits31 f1 -> fits31 f2 ->
  compute_node ntk stg_fn n t s
  = Some (tt, emit s
      (and_gadget (node_to_qubit s (get_node f1)) (node_to_qubit s (get_node f2))
                  (is_complemented f1) (is_complemented f2) t) []).
Proof.
  intros Hd Hfs H1 H2. dispatch_inv Hd.
  rewrite compute_node_probe. unfold compute_node. rewrite_conditions.
  rewrite !(lit_pol_fanin ntk n _ Hfs 0 f1), !(lit_pol_fanin ntk n _ Hfs 1 f2)
    by done.
  rewrite !(lit_node_fanin ntk n _ Hfs 0 f1), !(lit_node_fanin ntk n _ Hfs 1 f2)
    by done.
  destruct (is_complemented f1), (is_complemented f2); reflexivity.
Qed.

(** X3: an OR gate expands by De Morgan: X flips of the fan-ins that are not
    complemented, the Toffoli, an X on the target, and the flips undone in
    reverse order. *)
Theorem or_expansion ntk stg_fn n f1 f2 t s :
  dispatch ntk n = ExpOr ->
  foreach_fanin ntk n = [f1; f2] ->
  fits31 f1 -> fits31 f2 ->
  compute_node ntk stg_fn n t s
  = Some (tt, emit s
      (or_gadget (node_to_qubit s (get_node f1)) (node_to_qubit s (get_node f2))
                 (is_complemented f1) (is_complemented f2) t) []).
Proof.
  intros Hd Hfs H1 H2. dispatch_inv Hd.
  rewrite compute_node_probe. unfold compute_node. rewrite_conditions.
  rewrite !(lit_pol_fanin ntk n _ Hfs 0 f1), !(lit_pol_fanin ntk n _ Hfs 1 f2)
    by done.
  rewrite !(lit_node_fanin ntk n _ Hfs 0 f1), !(lit_node_fanin ntk n _ Hfs 1 f2)
    by done.
  destruct (is_complemented f1), (is_complemented f2); reflexivity.
Qed.

(** X4: an XOR gate expands to one CNOT per fan-in into the target and an X
    on the target when exactly one fan-in is complemented; an XOR3 gate
    whose first fan-in is no constant expands to three CNOTs and an X when
    an odd number of fan-ins is complemented.  No control is flipped. *)
Theorem xor_expansion ntk stg_fn n f1 f2 f3 t s :
  fits31 f1 -> fits31 f2 -> fits31 f3 ->
  let c1 := node_to_qubit s (get_node f1) in
  let c2 := node_to_qubit s (get_node f2) in
  let c3 := node_to_qubit s (get_node f3) in
  let p1 := is_complemented f1 in
  let p2 := is_complemented f2 in
  let p3 := is_complemented f3 in
  (dispatch ntk n = ExpXor -> foreach_fanin ntk n = [f1; f2] ->
   compute_node ntk stg_fn n t s
   = Some (tt, emit s (xor_gadget c1 c2 (xorb p1 p2) t) []))
  /\ (dispatch ntk n = ExpXor3 -> foreach_fanin ntk n = [f1; f2; f3] ->
      is_constant ntk (get_node f1) = false ->
      compute_node ntk stg_fn n t s
      = Some (tt, emit s (xor3_gadget c1 c2 c3 (xorb (xorb p1 p2) p3) t) [])).
Proof.
  intros H1 H2 H3 c1 c2 c3 p1 p2 p3. split.
  - intros Hd Hfs. dispatch_inv Hd.
    rewrite compute_node_probe. unfold compute_node. rewrite_conditions.
    rewrite !(lit_pol_fanin ntk n _ Hfs 0 f1), !(lit_pol_fanin ntk n _ Hfs 1 f2)
      by done.
    rewrite !(lit_node_fanin ntk n _ Hfs 0 f1), !(lit_node_fanin ntk n _ Hfs 1 f2)
      by done.
    subst p1 p2. destruct (xorb _ _); reflexivity.
  - intros Hd Hfs Hc. dispatch_inv Hd.
    rewrite compute_node_probe. unfold compute_node. rewrite_conditions.
    rewrite !(lit_pol_fanin ntk n _ Hfs 0 f1), !(lit_pol_fanin ntk n _ Hfs 1 f2),
      !(lit_pol_fanin ntk n _ Hfs 2 f3) by done.
    rewrite !(lit_node_fanin ntk n _ Hfs 0 f1), !(lit_node_fanin ntk n _ Hfs 1 f2),
      !(lit_node_fanin ntk n _ Hfs 2 f3) by done.
    rewrite Hc. subst p1 p2 p3. destruct (xorb _ _); reflexivity.
Qed.

(** ** The truth-table path and its assertion *)

Lemma foreach_add_gate G s : foreach G add_gate s = Some (tt, emit s G []).
Proof.
  revert s. induction G as [|g G IH]; intros s.
  - simpl. unfold mret, M_ret. by rewrite emit_nil.
  - simpl. unfold mbind, M_bind. simpl. rewrite IH.
    destruct s as [[nq gs] q fr ra ce]. unfold emit. simpl.
    by rewrite <- app_assoc.
Qed.

Lemma compute_xor_block_emits controls t s :
  compute_xor_block controls t s
  = Some (tt, emit s (xor_block_gadget controls t) []).
Proof.
  unfold compute_xor_block, xor_block_gadget.
  revert s. induction controls as [|c cs IH]; intros s.
  - simpl. unfold mret, M_ret. by rewrite emit_nil.
  - simpl. unfold mbind, M_bind.
    destruct (negb (c =? t)); simpl.
    + rewrite IH. destruct s as [[nq gs] q fr ra ce]. unfold emit. simpl.
      by rewrite <- app_assoc.
    + by rewrite IH.
Qed.

Lemma get_fanin_fold_plain (fs : list signal) : forall (acc : M (list qubit)) l0 s,
  forallb (fun f => negb (is_complemented f)) fs = true ->
  acc s = Some (l0, s) ->
  foldl (fun acc f =>
           controls ← acc;
           assert (negb (is_complemented f));;
           q ← mapped (node_to_index (get_node f));
           mret (controls ++ [q])) acc fs s
  = Some (l0 ++ map (fun f => node_to_qubit s (node_to_index (get_node f))) fs, s).
Proof.
  induction fs as [|f fs IH]; intros acc l0 s Hfs Hacc; simpl.
  - by rewrite app_nil_r.
  - simpl in Hfs. apply andb_prop in Hfs as [Hf Hfs].
    rewrite (IH _ (l0 ++ [node_to_qubit s (node_to_index (get_node f))]) s Hfs).
    + by rewrite <- app_assoc.
    + unfold mbind, M_bind. rewrite Hacc, Hf. reflexivity.
Qed.

Lemma get_fanin_fold_fails (fs : list signal) : forall (acc : M (list qubit)) s,
  acc s = None ->
  foldl (fun acc f =>
           controls ← acc;
           assert (negb (is_complemented f));;
           q ← mapped (node_to_index (get_node f));
           mret (controls ++ [q])) acc fs s
  = None.
Proof.
  induction fs as [|f fs IH]; intros acc s Hacc; simpl; [done|].
  apply IH. unfold mbind, M_bind. by rewrite Hacc.
Qed.

Lemma get_fanin_fold_complemented (fs : list signal) :
  forall (acc : M (list qubit)) l0 s,
  forallb (fun f => negb (is_complemented f)) fs = false ->
  acc s = Some (l0, s) ->
  foldl (fun acc f =>
           controls ← acc;
           assert (negb (is_complemented f));;
           q ← mapped (node_to_index (get_node f));
           mret (controls ++ [q])) acc fs s
  = None.
Proof.
  induction fs as [|f fs IH]; intros acc l0 s Hfs Hacc; simpl; [done|].
  simpl in Hfs. destruct (is_complemented f) eqn:Hf; simpl in Hfs.
  - apply get_fanin_fold_fails. unfold mbind, M_bind. by rewrite Hacc.
  - apply (IH _ (l0 ++ [node_to_qubit s (node_to_index (get_node f))]) s Hfs).
    unfold mbind, M_bind. rewrite Hacc. reflexivity.
Qed.

Lemma get_fanin_as_qubits_plain ntk n s :
  forallb (fun f => negb (is_complemented f)) (foreach_fanin ntk n) = true ->
  get_fanin_as_qubits ntk n s = Some (fanin_qubits ntk (node_to_qubit s) n, s).
Proof.
  intros Hfs. unfold get_fanin_as_qubits.
  by rewrite (get_fanin_fold_plain _ _ [] s Hfs).
Qed.

Lemma get_fanin_as_qubits_complemented ntk n s :
  forallb (fun f => negb (is_complemented f)) (foreach_fanin ntk n) = false ->
  get_fanin_as_qubits ntk n s = None.
Proof.
  intros Hfs. unfold get_fanin_as_qubits.
  by apply (get_fanin_fold_complemented _ _ [] s Hfs).
Qed.

(** X5: a node expanded through its truth table, with plain fan-ins, gives
    the XOR block over the qubits of its fan-ins (one CNOT per fan-in qubit
    other than the target, no call of the synthesis callback) when its
    function is the parity of its variables, and otherwise exactly the gates
    of the callback on the function and the fan-in qubits followed by the
    target. *)
Theorem function_expansion ntk stg_fn n t s :
  dispatch ntk n = ExpFunction ->
  forallb (fun f => negb (is_complemented f)) (foreach_fanin ntk n) = true ->
  let controls := fanin_qubits ntk (node_to_qubit s) n in
  let function := node_function ntk n in
  compute_node ntk stg_fn n t s
  = Some (tt, emit s
      (if tt_eqb function (create_parity function)
       then xor_block_gadget controls t
       else stg_fn function (controls ++ [t])) []).
Proof.
  intros Hd Hfs controls function. dispatch_inv Hd.
  unfold compute_node. rewrite_conditions.
  fold function.
  destruct (tt_eqb function (create_parity function));
    unfold mbind, M_bind;
    rewrite (get_fanin_as_qubits_plain ntk n s Hfs); fold controls.
  - apply compute_xor_block_emits.
  - unfold compute_lut. apply foreach_add_gate.
Qed.

Lemma compute_node_inplace_runs ntk n t :
  inplace_expander_defined ntk n = true -> runs (compute_node_inplace ntk n t).
Proof.
  unfold inplace_expander_defined, compute_node_inplace, compute_xor_inplace,
    compute_xor3_inplace, compute_xor_block.
  intros Hd.
  destruct (has_is_xor ntk && is_xor ntk n); [solve_runs|].
  destruct (has_is_xor3 ntk && is_xor3 ntk n); [solve_runs|].
  destruct (has_node_function ntk); [|solve_runs].
  pose proof (get_fanin_as_qubits_runs ntk n Hd).
  solve_runs.
Qed.

Lemma compute_node_stops ntk stg_fn n t s :
  expander_defined ntk n = false -> compute_node ntk stg_fn n t s = None.
Proof.
  unfold expander_defined. intros Hd.
  destruct (dispatch ntk n) eqn:Hk; try discriminate Hd.
  dispatch_inv Hk. unfold compute_node. rewrite_conditions.
  destruct (tt_eqb _ _); unfold mbind, M_bind;
    by rewrite (get_fanin_as_qubits_complemented ntk n s Hd).
Qed.

Lemma compute_node_inplace_stops ntk n t s :
  inplace_expander_defined ntk n = false -> compute_node_inplace ntk n t s = None.
Proof.
  unfold inplace_expander_defined, compute_node_inplace.
  destruct (has_is_xor ntk && is_xor ntk n); [done|].
  destruct (has_is_xor3 ntk && is_xor3 ntk n); [done|].
  destruct (has_node_function ntk); [|done].
  intros Hd. unfold mbind, M_bind.
  by rewrite (get_fanin_as_qubits_complemented ntk n s Hd).
Qed.

(** X6: the expanders stop exactly on the assertion of the truth-table path:
    [compute_node] fails if and only if the node is expanded through its
    truth table and has a complemented fan-in, and [compute_node_inplace]
    fails if and only if the node is no XOR or XOR3, the network has node
    functions and a fan-in is complemented. *)
Theorem expanders_fail_on_complemented_fanins ntk stg_fn n t s :
  (compute_node ntk stg_fn n t s = None <-> expander_defined ntk n = false)
  /\ (compute_node_inplace ntk n t s = None
      <-> inplace_expander_defined ntk n = false).
Proof.
  split; split.
  - intros E. destruct (expander_defined ntk n) eqn:Hd; [|done].
    destruct (compute_node_runs ntk stg_fn n t Hd s) as (a & G & D & E').
    congruence.
  - apply compute_node_stops.
  - intros E. destruct (inplace_expander_defined ntk n) eqn:Hd; [|done].
    destruct (compute_node_inplace_runs ntk n t Hd s) as (a & G & D & E').
    congruence.
  - apply compute_node_inplace_stops.
Qed.

(** X7: the XOR block emits one CNOT into the target per control other than
    the target, in the order of the controls; no emitted gate has its
    target among its controls, and nothing goes to the error sink. *)
Theorem xor_block_skips_target controls t s :
  compute_xor_block controls t s
  = Some (tt, emit s (xor_block_gadget controls t) [])
  /\ (forall g, g ∈ xor_block_gadget controls t ->
        gate_kind g = cx /\ gate_targets g = [t] /\ t ∉ gate_controls g)
  /\ (t ∉ controls ->
      xor_block_gadget controls t = map (fun c => CX c t) controls).
Proof.
  split; [apply compute_xor_block_emits|]. split.
  - intros g Hg. unfold xor_block_gadget in Hg.
    apply list_elem_of_fmap in Hg as (c & -> & Hc).
    apply list_elem_of_In, filter_In in Hc as [_ Hc].
    apply negb_true_iff, N.eqb_neq in Hc.
    repeat split. simpl. intros Hin. apply list_elem_of_singleton in Hin. done.
  - intros Ht. unfold xor_block_gadget. f_equal.
    induction controls as [|c cs IH]; [done|].
    apply not_elem_of_cons in Ht as [Hc Ht]. simpl.
    destruct (N.eqb_spec c t) as [->|_]; [done|]. simpl. by rewrite IH.
Qed.

(** ** The ancilla pool *)

Lemma release_all_pushes qs : forall s,
  release_all qs s
  = Some (tt, State (qnet s) (node_to_qubit s) (reverse qs ++ free_ancillae s)
                    (st_required_ancillae s) (cerr s)).
Proof.
  induction qs as [|q qs IH]; intros s.
  - by destruct s.
  - unfold release_all in *. simpl. unfold mbind, M_bind. simpl.
    rewrite IH. simpl. by rewrite reverse_cons, <- app_assoc.
Qed.

Lemma request_n_pops l : forall nq gs q fr ra ce,
  request_n (length l) (State (QNet nq gs) q (l ++ fr) ra ce)
  = Some (l, State (QNet nq gs) q fr ra ce).
Proof.
  induction l as [|x l IH]; intros nq gs q fr ra ce; [done|].
  simpl. unfold mbind, M_bind. simpl. by rewrite IH.
Qed.

(** X8: the pool is a stack.  After releasing the qubits [qs] one after the
    other, as many requests hand them back in the reverse order, allocate
    no qubit, leave [required_ancillae] alone and restore the pool. *)
Theorem pool_is_lifo qs s :
  (release_all qs ;; request_n (length qs)) s = Some (reverse qs, s).
Proof.
  unfold mbind, M_bind. rewrite release_all_pushes.
  destruct s as [[nq gs] q fr ra ce]. simpl.
  rewrite <- (length_reverse qs). apply request_n_pops.
Qed.

(** X9: along any step stream, the quantum network grows by one qubit for
    each request that found the pool empty, never more than one per
    [Compute] step, and [required_ancillae] counts exactly these qubits
    modulo [2^32]. *)
Theorem required_ancillae_counts_added_qubits ntk stg_fn steps s s' :
  drive ntk stg_fn steps s = Some (tt, s') ->
  exists k : nat,
    (k <= length (List.filter is_compute_step steps))%nat
    /\ num_qubits (qnet s') = num_qubits (qnet s) + N.of_nat k
    /\ wrap32 (st_required_ancillae s')
       = wrap32 (st_required_ancillae s + N.of_nat k).
Proof.
  revert s. induction steps as [|st steps IH]; intros s E.
  - injection E as <-. exists 0%nat. simpl. split; [lia|]. change (N.of_nat 0) with 0.
          by rewrite !N.add_0_r.
  - unfold drive in E. simpl in E. unfold mbind at 1, M_bind at 1 in E.
    destruct (exec_step ntk stg_fn st s) as [[[] s1]|] eqn:E1; [|done].
    destruct (IH s1 E) as (k & Hk & Hnq & Hra).
    assert (exists j : nat,
               (j <= if is_compute_step st then 1 else 0)%nat
               /\ num_qubits (qnet s1) = num_qubits (qnet s) + N.of_nat j
               /\ wrap32 (st_required_ancillae s1)
                  = wrap32 (st_required_ancillae s + N.of_nat j))
      as (j & Hj & Hnq1 & Hra1).
    { destruct st as [n [| |tgt|tgt]]; simpl in E1;
        unfold mbind, M_bind, mapped, map_node in E1.
      - unfold request_ancilla in E1.
        destruct (free_ancillae s) as [|r rest].
        + destruct (local_frame _ _ _ _ _ (compute_node_local ntk stg_fn n _) E1)
            as (G & D & ->).
          exists 1%nat. simpl. split; [lia|]. split; [done|].
          unfold wrap32. by rewrite N.Div0.mod_mod.
        + destruct (local_frame _ _ _ _ _ (compute_node_local ntk stg_fn n _) E1)
            as (G & D & ->).
          exists 0%nat. simpl. split; [lia|]. change (N.of_nat 0) with 0.
          by rewrite !N.add_0_r.
      - destruct (compute_node ntk stg_fn n (node_to_qubit s n) s)
          as [[[] s2]|] eqn:Ec; [|done].
        destruct (local_frame _ _ _ _ _ (compute_node_local ntk stg_fn n _) Ec)
          as (G & D & ->).
        injection E1 as <-. exists 0%nat. simpl. split; [lia|]. change (N.of_nat 0) with 0.
          by rewrite !N.add_0_r.
      - destruct (local_frame _ _ _ _ _ (compute_node_inplace_local ntk n _) E1)
          as (G & D & ->).
        exists 0%nat. simpl. split; [lia|]. change (N.of_nat 0) with 0.
          by rewrite !N.add_0_r.
      - destruct (local_frame _ _ _ _ _ (compute_node_inplace_local ntk n _) E1)
          as (G & D & ->).
        exists 0%nat. simpl. split; [lia|]. change (N.of_nat 0) with 0.
          by rewrite !N.add_0_r. }
    exists (j + k)%nat. split; [|split].
    + simpl. destruct (is_compute_step st); simpl; lia.
    + rewrite Hnq, Hnq1. lia.
    + rewrite Hra. unfold wrap32 in *.
      rewrite <- N.Div0.add_mod_idemp_l, Hra1, N.Div0.add_mod_idemp_l.
      f_equal. lia.
Qed.

(** X10: an in-place step takes no qubit from the pool and returns none: the
    pool, [required_ancillae] and the number of qubits stay as they are, and
    the map afterwards is the map under which the node was expanded (only
    the entry of the node itself may have changed, to the qubit of the
    target). *)
Theorem inplace_steps_keep_pool ntk stg_fn n a s s' t q :
  inplace_target s n a = Some (t, q) ->
  exec_step ntk stg_fn (n, a) s = Some (tt, s') ->
  free_ancillae s' = free_ancillae s
  /\ st_required_ancillae s' = st_required_ancillae s
  /\ num_qubits (qnet s') = num_qubits (qnet s)
  /\ node_to_qubit s' = q
  /\ (forall m, m <> n -> node_to_qubit s' m = node_to_qubit s m).
Proof.
  intros Ht E. destruct a as [| |tgt|tgt]; simpl in Ht; try done;
    injection Ht as <- <-; simpl in E;
    unfold mbind, M_bind, mapped, map_node in E.
  - destruct (local_frame _ _ _ _ _ (compute_node_inplace_local ntk n _) E)
      as (G & D & ->).
    simpl. repeat split. intros m Hm. by apply N.eqb_neq in Hm as ->.
  - destruct (local_frame _ _ _ _ _ (compute_node_inplace_local ntk n _) E)
      as (G & D & ->).
    by simpl.
Qed.

(** ** The layout after [prepare] *)

Lemma prepare_inputs_allocates pis : forall s,
  foreach pis (fun n => q ← qnet_num_qubits; map_node n q;; add_qubit) s
  = Some (tt, allocate_all pis s).
Proof.
  induction pis as [|n pis IH]; intros s; [done|].
  simpl. unfold mbind at 1, M_bind at 1. unfold mbind at 1, M_bind at 1.
  simpl. by rewrite IH.
Qed.

Lemma prepare_constant_allocates ntk v s :
  prepare_constant ntk v s
  = Some (tt, if fanout_size ntk (get_node (get_constant ntk v)) =? 0 then s
              else emit (allocate (get_node (get_constant ntk v)) s)
                        (constant_gate ntk v (num_qubits (qnet s))) []).
Proof.
  unfold prepare_constant, constant_gate.
  destruct (_ =? 0); [done|].
  unfold mbind, M_bind. simpl. rewrite N.eqb_refl.
  destruct (xorb _ _); simpl.
  - unfold add_gate, emit, allocate. simpl. by rewrite app_nil_r.
  - unfold mret, M_ret, emit, allocate. simpl. by rewrite !app_nil_r.
Qed.

Lemma allocate_all_cons n l s :
  allocate_all (n :: l) s = allocate_all l (allocate n s).
Proof. reflexivity. Qed.

Lemma allocate_all_frame l : forall s,
  num_qubits (qnet (allocate_all l s)) = num_qubits (qnet s) + N.of_nat (length l)
  /\ gates (qnet (allocate_all l s)) = gates (qnet s)
  /\ free_ancillae (allocate_all l s) = free_ancillae s
  /\ st_required_ancillae (allocate_all l s) = st_required_ancillae s
  /\ cerr (allocate_all l s) = cerr s.
Proof.
  induction l as [|n l IH]; intros s.
  - simpl. by rewrite N.add_0_r.
  - destruct (IH (allocate n s)) as (H1 & H2 & H3 & H4 & H5).
    rewrite allocate_all_cons, H1, H2, H3, H4, H5.
    simpl. repeat split. lia.
Qed.

Lemma allocate_all_other l : forall s n,
  n ∉ l -> node_to_qubit (allocate_all l s) n = node_to_qubit s n.
Proof.
  induction l as [|m l IH]; intros s n Hn; [done|].
  apply not_elem_of_cons in Hn as [Hne Hn].
  rewrite allocate_all_cons, IH by done.
  simpl. by apply N.eqb_neq in Hne as ->.
Qed.

Lemma allocate_all_lookup l : forall s i n,
  NoDup l -> l !! i = Some n ->
  node_to_qubit (allocate_all l s) n = num_qubits (qnet s) + N.of_nat i.
Proof.
  induction l as [|m l IH]; intros s i n Hnd Hi; [done|].
  apply NoDup_cons in Hnd as [Hm Hnd].
  rewrite allocate_all_cons.
  destruct i as [|i]; simpl in Hi.
  - injection Hi as ->.
    rewrite (allocate_all_other l _ n Hm). simpl.
    by rewrite N.eqb_refl, N.add_0_r.
  - rewrite (IH _ i n Hnd Hi). simpl. lia.
Qed.

Lemma prepare_allocates ntk s :
  exists s',
    prepare ntk s = Some (tt, s')
    /\ num_qubits (qnet s') = num_qubits (qnet (allocate_all (prepared_nodes ntk) s))
    /\ node_to_qubit s' = node_to_qubit (allocate_all (prepared_nodes ntk) s)
    /\ gates (qnet s')
       = gates (qnet s)
         ++ constant_gate ntk false
              (num_qubits (qnet s) + N.of_nat (length (foreach_pi ntk)))
         ++ (if negb (get_node (get_constant ntk false)
                      =? get_node (get_constant ntk true))
             then constant_gate ntk true
                    (num_qubits (qnet s) + N.of_nat (length (foreach_pi ntk))
                     + (if fanout_size ntk (get_node (get_constant ntk false))
                           =? 0 then 0 else 1))
             else []).
Proof.
  unfold prepare, prepare_inputs.
  unfold mbind at 1, M_bind at 1. rewrite prepare_inputs_allocates.
  unfold mbind at 1, M_bind at 1. rewrite prepare_constant_allocates.
  unfold prepared_nodes. cbv zeta.
  set (n0 := get_node (get_constant ntk false)).
  set (n1 := get_node (get_constant ntk true)).
  set (s1 := allocate_all (foreach_pi ntk) s).
  destruct (allocate_all_frame (foreach_pi ntk) s) as (Hnq & Hg & _).
  fold s1 in Hnq, Hg.
  unfold allocate_all at 1 2. rewrite !foldl_app. fold (allocate_all (foreach_pi ntk) s).
  fold s1.
  destruct (negb (n0 =? n1)) eqn:Hne; simpl when.
  - rewrite prepare_constant_allocates. fold n0 n1.
    destruct (fanout_size ntk n0 =? 0) eqn:Hf0;
      destruct (fanout_size ntk n1 =? 0) eqn:Hf1;
      eexists; (split; [reflexivity|]); simpl;
      unfold constant_gate; fold n0 n1; rewrite ?Hf0, ?Hf1, ?Hnq, ?Hg, ?N.add_0_r;
      simpl; rewrite ?app_nil_r, <- ?app_assoc; done.
  - destruct (fanout_size ntk n0 =? 0) eqn:Hf0;
      eexists; (split; [reflexivity|]); simpl;
      unfold constant_gate; fold n0; rewrite ?Hf0, ?Hnq, ?Hg;
      simpl; rewrite ?app_nil_r; done.
Qed.

(** X11: [prepare] lays the qubits out in the order inputs, constant false,
    constant true: it adds one qubit per prepared node, maps the [i]-th
    prepared node to the [i]-th new qubit and leaves every other entry of
    the map, the pool and the statistics untouched. *)
Theorem prepare_layout ntk s :
  NoDup (prepared_nodes ntk) ->
  exists s',
    prepare ntk s = Some (tt, s')
    /\ num_qubits (qnet s')
       = num_qubits (qnet s) + N.of_nat (length (prepared_nodes ntk))
    /\ (forall i n, prepared_nodes ntk !! i = Some n ->
          node_to_qubit s' n = num_qubits (qnet s) + N.of_nat i)
    /\ (forall n, n ∉ prepared_nodes ntk -> node_to_qubit s' n = node_to_qubit s n)
    /\ free_ancillae s' = free_ancillae s
    /\ st_required_ancillae s' = st_required_ancillae s.
Proof.
  intros Hnd.
  destruct (prepare_allocates ntk s) as (s' & E & Hnq & Hq & _).
  destruct (prepare_keeps_pool ntk s) as ([] & s2 & E2 & Hf & Hr).
  rewrite E in E2. injection E2 as <-.
  exists s'. split; [done|].
  destruct (allocate_all_frame (prepared_nodes ntk) s) as (Hnq' & _).
  rewrite Hnq, Hq. split; [done|]. split; [|split; [|done]].
  - intros i n Hi. by apply allocate_all_lookup.
  - intros n Hn. by apply allocate_all_other.
Qed.

(** X12: the only gates [prepare] adds are Pauli-X gates on constant qubits:
    one on the qubit of a constant with fan-out whose value, XORed with the
    complement bit of its signal, is true; constant true is only looked at
    when its node differs from the node of constant false. *)
Theorem prepare_gates ntk s :
  let n0 := get_node (get_constant ntk false) in
  let n1 := get_node (get_constant ntk true) in
  let q0 := num_qubits (qnet s) + N.of_nat (length (foreach_pi ntk)) in
  let q1 := q0 + (if fanout_size ntk n0 =? 0 then 0 else 1) in
  exists s',
    prepare ntk s = Some (tt, s')
    /\ gates (qnet s')
       = gates (qnet s) ++ constant_gate ntk false q0
         ++ (if negb (n0 =? n1) then constant_gate ntk true q1 else []).
Proof.
  intros n0 n1 q0 q1.
  destruct (prepare_allocates ntk s) as (s' & E & _ & _ & Hg).
  exists s'. split; [done|]. exact Hg.
Qed.

(** ** The shape of the streams, whatever the node indices *)

Lemma inplace_visit_some_bracket ntk n vs st :
  is_gate ntk n = true ->
  exists vs' b,
    BennettInplace.visit ntk (po_drivers ntk) n (vs, st)
    = (vs', insert_bracket b st)
    /\ bracket_of_gate ntk n b.
Proof.
  intros Hg. unfold BennettInplace.visit. unfold is_gate in Hg.
  apply negb_true_iff in Hg. rewrite Hg. destruct st as [steps it].
  destruct (foldl _ _ _) as [vs' target].
  assert (Hout : exists b,
             (let '(steps0, it0) := vec_insert steps it (n, compute_action) in
              let it1 := S it0 in
              if bool_decide (n ∈ po_drivers ntk) then (vs', (steps0, it1))
              else (vs', vec_insert steps0 it1 (n, uncompute_action)))
             = (vs', insert_bracket b (steps, it))
             /\ bracket_of_gate ntk n b).
  { exists (out_of_place ntk n). split; [|by left].
    unfold insert_bracket, out_of_place, is_driver. simpl.
    by destruct (bool_decide (n ∈ po_drivers ntk)). }
  assert (Hin : is_driver ntk n = false -> xor_class ntk n = true ->
           exists b,
             (vs', BennettInplace.insert_pair n
                     (compute_inplace_action (to_uint32 target))
                     (uncompute_inplace_action (to_uint32 target)) steps it)
             = (vs', insert_bracket b (steps, it))
             /\ bracket_of_gate ntk n b).
  { intros Hd Hx.
    exists ((n, compute_inplace_action (to_uint32 target)),
            Some (n, uncompute_inplace_action (to_uint32 target))).
    split; [reflexivity|]. right. eauto. }
  destruct Hout as (b & Eb & Hb).
  unfold is_driver, xor_class in Hin.
  destruct (negb (target =? -1)%Z); simpl; [|by exists vs', b].
  destruct (bool_decide (n ∈ po_drivers ntk)) eqn:Hd; simpl; [by exists vs', b|].
  destruct (has_is_xor ntk && is_xor ntk n) eqn:Hx; simpl.
  { destruct Hin as (b' & Eb' & Hb'); [done..|]. by exists vs', b'. }
  destruct (has_is_xor3 ntk && is_xor3 ntk n) eqn:Hx3; simpl.
  { destruct Hin as (b' & Eb' & Hb'); [done..|]. by exists vs', b'. }
  by exists vs', b.
Qed.

Lemma inplace_fold_some_brackets ntk l : forall vs st,
  exists bs,
    snd (foldl (fun st n => BennettInplace.visit ntk (po_drivers ntk) n st)
               (vs, st) l)
    = foldl (fun st b => insert_bracket b st) st bs
    /\ Forall2 (bracket_of_gate ntk) (gate_nodes ntk l) bs.
Proof.
  induction l as [|n l IH]; intros vs st.
  - exists []. split; [done|constructor].
  - cbn [foldl gate_nodes List.filter].
    destruct (is_gate ntk n) eqn:Hg.
    + destruct (inplace_visit_some_bracket ntk n vs st Hg) as (vs' & b & E & Hb).
      rewrite E. destruct (IH vs' (insert_bracket b st)) as (bs & Ebs & Hbs).
      exists (b :: bs). split; [done|]. by constructor.
    + assert (E : BennettInplace.visit ntk (po_drivers ntk) n (vs, st) = (vs, st)).
      { unfold BennettInplace.visit. unfold is_gate in Hg.
        apply negb_false_iff in Hg. rewrite Hg. by destruct st. }
      rewrite E. apply IH.
Qed.

Lemma inplace_stream_brackets ntk :
  exists bs,
    BennettInplace.bennett_inplace_mapping_strategy ntk = assemble bs
    /\ Forall2 (bracket_of_gate ntk) (gate_nodes ntk (foreach_node ntk)) bs.
Proof.
  unfold BennettInplace.bennett_inplace_mapping_strategy.
  destruct (inplace_fold_some_brackets ntk (foreach_node ntk)
              (BennettInplace.init_values ntk) ([], 0%nat)) as (bs & E & Hbs).
  exists bs. split; [|done].
  rewrite E, (foldl_insert_bracket _ [] []). simpl. by rewrite app_nil_r.
Qed.

Lemma brackets_shape ntk gs bs :
  Forall2 (bracket_of_gate ntk) gs bs ->
  map (fun b => fst (fst b)) bs = gs
  /\ length (omap snd bs)
     = length (List.filter (fun n => negb (is_driver ntk n)) gs)
  /\ (forall st, st ∈ map fst bs \/ st ∈ omap snd bs ->
        fst st ∈ gs /\ (is_driver ntk (fst st) = true -> snd st = compute_action)).
Proof.
  induction 1 as [|n b gs bs Hb Hbs (IH1 & IH2 & IH3)].
  - repeat split; try done; destruct H as [[]%elem_of_nil|[]%elem_of_nil].
  - assert (Hfst : fst (fst b) = n).
    { destruct Hb as [->|(_ & _ & t & ->)]; done. }
    assert (Hcl : (is_driver ntk n = true /\ snd b = None /\ fst b = (n, compute_action))
                  \/ (is_driver ntk n = false
                      /\ exists u, snd b = Some u /\ fst u = n)).
    { destruct Hb as [->|(Hd & _ & t & ->)].
      - unfold out_of_place. destruct (is_driver ntk n); [by left|].
        right. split; [done|]. by eexists.
      - right. split; [done|]. by eexists. }
    split; [|split].
    + cbn [map]. f_equal; [exact Hfst|exact IH1].
    + destruct Hcl as [(Hd & Hs & _)|(Hd & u & Hs & _)];
        cbn [omap list_omap List.filter]; rewrite Hs, Hd; simpl; by rewrite IH2.
    + intros st Hst.
      assert (Hcases : st = fst b \/ snd b = Some st
                       \/ (st ∈ map fst bs \/ st ∈ omap snd bs)).
      { destruct Hst as [Hst|Hst].
        - simpl in Hst. apply elem_of_cons in Hst as [->|Hst]; tauto.
        - cbn [omap list_omap] in Hst. destruct (snd b) as [u|].
          + apply elem_of_cons in Hst as [->|Hst]; tauto.
          + tauto. }
      destruct Hcases as [->|[Hs|Hrest]].
      * rewrite Hfst. split; [left|].
        intros Hd. destruct Hcl as [(_ & _ & ->)|(Hd' & _)]; [done|congruence].
      * destruct Hcl as [(_ & Hs' & _)|(Hd' & u & Hs' & Hu)]; [congruence|].
        assert (u = st) as -> by congruence.
        rewrite Hu. split; [left|]. congruence.
      * destruct (IH3 st Hrest) as [Hin Hdr]. split; [by right|done].
Qed.

(** X13: for every network, whatever its node indices, the in-place stream
    nests one bracket per gate in node order: the opening steps of the gates
    in the order of [foreach_node], then the closing steps in the reverse
    order; an in-place pair only brackets an XOR or XOR3 that is no driver.
    The stream has one step per gate and one more per gate that is no
    driver. *)
Theorem inplace_stream_is_nested ntk :
  let gs := gate_nodes ntk (foreach_node ntk) in
  exists bs,
    BennettInplace.bennett_inplace_mapping_strategy ntk
    = map fst bs ++ reverse (omap snd bs)
    /\ Forall2 (bracket_of_gate ntk) gs bs
    /\ map fst (map fst bs) = gs
    /\ length (BennettInplace.bennett_inplace_mapping_strategy ntk)
       = (length gs
          + length (List.filter (fun n => negb (is_driver ntk n)) gs))%nat.
Proof.
  intros gs. destruct (inplace_stream_brackets ntk) as (bs & E & Hbs).
  destruct (brackets_shape ntk _ _ Hbs) as (H1 & H2 & _).
  exists bs. split; [exact E|]. split; [exact Hbs|]. split.
  - by rewrite map_map.
  - rewrite E. unfold assemble.
    rewrite length_app, length_reverse, length_map, H2.
    f_equal. apply Forall2_length in Hbs. symmetry. exact Hbs.
Qed.

(** X14: in the Bennett stream and in the in-place stream alike, every step
    is on a gate that the strategy visited, and a primary-output driver is
    only ever computed: it is neither uncomputed nor computed in place. *)
Theorem drivers_are_only_computed ntk st :
  (st ∈ Bennett.bennett_mapping_strategy ntk
   -> fst st ∈ gate_nodes ntk (topo_foreach_node ntk)
      /\ (is_driver ntk (fst st) = true -> snd st = compute_action))
  /\ (st ∈ BennettInplace.bennett_inplace_mapping_strategy ntk
      -> fst st ∈ gate_nodes ntk (foreach_node ntk)
         /\ (is_driver ntk (fst st) = true -> snd st = compute_action)).
Proof.
  split.
  - rewrite bennett_assemble. unfold assemble. intros Hst.
    assert (Hbs : Forall2 (bracket_of_gate ntk)
                    (gate_nodes ntk (topo_foreach_node ntk))
                    (map (out_of_place ntk) (gate_nodes ntk (topo_foreach_node ntk)))).
    { clear Hst. induction (gate_nodes ntk (topo_foreach_node ntk)) as [|g gs IH];
        cbn [map]; constructor; [by left|exact IH]. }
    destruct (brackets_shape ntk _ _ Hbs) as (_ & _ & H3). apply H3.
    apply elem_of_app in Hst as [Hst|Hst]; [left; exact Hst|].
    right. rewrite elem_of_reverse in Hst. exact Hst.
  - destruct (inplace_stream_brackets ntk) as (bs & E & Hbs). rewrite E.
    unfold assemble. intros Hst.
    destruct (brackets_shape ntk _ _ Hbs) as (_ & _ & H3). apply H3.
    apply elem_of_app in Hst as [Hst|Hst]; [left; exact Hst|].
    right. rewrite elem_of_reverse in Hst. exact Hst.
Qed.

(** ** When the synthesis returns *)

Lemma exec_step_stops ntk stg_fn st s :
  exec_step ntk stg_fn st s = None <-> step_defined ntk st = false.
Proof.
  destruct st as [n a]. unfold step_defined. cbn [fst snd].
  assert (Hc : forall t s0, compute_node ntk stg_fn n t s0 = None
                            <-> expander_defined ntk n = false).
  { intros t s0. split; [|apply compute_node_stops].
    intros E. destruct (expander_defined ntk n) eqn:Hd; [|done].
    destruct (compute_node_runs ntk stg_fn n t Hd s0) as (x & G & D & E').
    congruence. }
  assert (Hi : forall t s0, compute_node_inplace ntk n t s0 = None
                            <-> inplace_expander_defined ntk n = false).
  { intros t s0. split; [|apply compute_node_inplace_stops].
    intros E. destruct (inplace_expander_defined ntk n) eqn:Hd; [|done].
    destruct (compute_node_inplace_runs ntk n t Hd s0) as (x & G & D & E').
    congruence. }
  destruct a as [| |tgt|tgt]; simpl;
    unfold mbind, M_bind, mapped, map_node, request_ancilla, release_ancilla.
  - destruct (free_ancillae s); apply Hc.
  - rewrite <- (Hc (node_to_qubit s n) s).
    destruct (compute_node ntk stg_fn n (node_to_qubit s n) s) as [[[] s1]|]; done.
  - apply Hi.
  - apply Hi.
Qed.

Lemma drive_stops ntk stg_fn steps : forall s,
  drive ntk stg_fn steps s = None
  <-> exists st, st ∈ steps /\ step_defined ntk st = false.
Proof.
  induction steps as [|st steps IH]; intros s.
  - split; [done|]. intros (st & []%elem_of_nil & _).
  - unfold drive. cbn [foreach foldr]. unfold mbind at 1, M_bind at 1.
    fold (drive ntk stg_fn steps).
    pose proof (exec_step_stops ntk stg_fn st s) as Hst.
    destruct (exec_step ntk stg_fn st s) as [[[] s1]|].
    + etransitivity; [exact (IH s1)|]. split.
      * intros (st' & Hin & Hd). exists st'. split; [by right|done].
      * intros (st' & Hin & Hd). apply elem_of_cons in Hin as [->|Hin].
        -- apply Hst in Hd. done.
        -- by exists st'.
    + split; [|done]. intros _. exists st. split; [left|by apply Hst].
Qed.

(** X15: the synthesis returns unless a scheduled step runs into the
    assertion of the truth-table path: whatever the strategy,
    [logic_network_synthesis] fails if and only if its stream has an
    out-of-place step on a node expanded through its truth table with a
    complemented fan-in, or an in-place step on such a node that is no XOR or
    XOR3.  On a network without node functions it always returns. *)
Theorem synthesis_stops_only_on_assertion (T : Type) (MS : MappingStrategy T)
    qnet0 ntk stg_fn ps :
  (@logic_network_synthesis T MS qnet0 ntk stg_fn ps = None
   <-> exists st,
         st ∈ foreach_step (@configured_strategy ntk ps T MS)
         /\ step_defined ntk st = false)
  /\ (has_node_function ntk = false ->
      @logic_network_synthesis T MS qnet0 ntk stg_fn ps <> None).
Proof.
  assert (Hiff : @logic_network_synthesis T MS qnet0 ntk stg_fn ps = None
                 <-> exists st,
                       st ∈ foreach_step (@configured_strategy ntk ps T MS)
                       /\ step_defined ntk st = false).
  { unfold logic_network_synthesis, run. unfold mbind at 1, M_bind at 1.
    destruct (prepare_keeps_pool ntk (State qnet0 (fun _ => 0) [] 0 []))
      as ([] & s1 & -> & _).
    rewrite <- (drive_stops ntk stg_fn _ s1).
    destruct (drive ntk stg_fn _ s1) as [[[] s2]|]; done. }
  split; [exact Hiff|].
  intros Hnf. rewrite Hiff. intros ([n a] & _ & Hd).
  unfold step_defined, expander_defined, inplace_expander_defined, dispatch in Hd.
  cbn [fst snd] in Hd. rewrite Hnf in Hd.
  destruct a;
    repeat match type of Hd with
           | context [if ?c then _ else _] => destruct c
           end; discriminate Hd.
Qed.

(** ** What the gadgets compute on basis states *)

Lemma run_gates_app G1 G2 σ :
  run_gates (G1 ++ G2) σ = run_gates G2 (run_gates G1 σ).
Proof. apply foldl_app. Qed.

Lemma adds_onto_ext G t f g :
  (forall σ, f σ = g σ) -> adds_onto G t f -> adds_onto G t g.
Proof. intros Hfg HG σ q. by rewrite HG, Hfg. Qed.

Lemma adds_onto_twice G t f :
  adds_onto G t f ->
  (forall σ σ', (forall q, q <> t -> σ' q = σ q) -> f σ' = f σ) ->
  forall σ q, run_gates (G ++ G) σ q = σ q.
Proof.
  intros HG Hf σ q. rewrite run_gates_app, HG.
  destruct (N.eqb_spec q t) as [->|Hq].
  - rewrite HG, N.eqb_refl, (Hf σ (run_gates G σ)).
    + by destruct (σ t), (f σ).
    + intros q Hq. rewrite HG. by apply N.eqb_neq in Hq as ->.
  - rewrite HG. by apply N.eqb_neq in Hq as ->.
Qed.

(** *** Renaming wires to qubits *)

Section Rename.
Variable qs : list qubit.
Hypothesis qs_nodup : NoDup qs.

Lemma place_in i : (N.to_nat i < length qs)%nat -> place qs i ∈ qs.
Proof. intros Hi. apply list_elem_of_In, nth_In, Hi. Qed.

Lemma place_inj i j :
  (N.to_nat i < length qs)%nat -> (N.to_nat j < length qs)%nat ->
  place qs i = place qs j -> i = j.
Proof.
  intros Hi Hj E. apply N2Nat.inj.
  apply NoDup_ListNoDup in qs_nodup.
  by apply (proj1 (List.NoDup_nth qs 0) qs_nodup).
Qed.

Lemma in_place q : q ∈ qs -> exists i, (N.to_nat i < length qs)%nat /\ place qs i = q.
Proof.
  intros Hq. apply list_elem_of_In in Hq.
  destruct (In_nth qs q 0 Hq) as (n & Hn & E).
  exists (N.of_nat n). unfold place. by rewrite Nat2N.id.
Qed.

Lemma rename_negates ts σ ρ :
  Forall (fun t => (N.to_nat t < length qs)%nat) ts -> agree qs σ ρ ->
  agree qs (foldr negate σ (map (place qs) ts)) (foldr negate ρ ts)
  /\ (forall q, q ∉ qs -> foldr negate σ (map (place qs) ts) q = σ q).
Proof.
  induction 1 as [|t ts Ht Hts IH]; intros Hag; [done|].
  destruct (IH Hag) as [IHa IHo]. cbn [map foldr]. split.
  - intros i Hi. unfold negate at 1 3. rewrite (IHa i Hi).
    destruct (N.eqb_spec i t) as [->|Hne]; [by rewrite N.eqb_refl|].
    destruct (N.eqb_spec (place qs i) (place qs t)) as [E|_]; [|done].
    by apply place_inj in E.
  - intros q Hq. unfold negate at 1. rewrite (IHo q Hq).
    destruct (N.eqb_spec q (place qs t)) as [->|_]; [|done].
    by apply place_in in Ht.
Qed.

Lemma rename_controls cs σ ρ :
  Forall (fun c => (N.to_nat c < length qs)%nat) cs -> agree qs σ ρ ->
  forallb σ (map (place qs) cs) = forallb ρ cs.
Proof.
  induction 1 as [|c cs Hc Hcs IH]; intros Hag; [done|].
  cbn [map forallb]. by rewrite (Hag c Hc), IH.
Qed.

Lemma rename_apply g σ ρ :
  gate_within (length qs) g = true -> agree qs σ ρ ->
  agree qs (apply_gate (rename_gate (place qs) g) σ) (apply_gate g ρ)
  /\ (forall q, q ∉ qs -> apply_gate (rename_gate (place qs) g) σ q = σ q).
Proof.
  unfold gate_within. rewrite forallb_app. intros [Hc Ht]%andb_true_iff Hag.
  assert (Hcs : Forall (fun c => (N.to_nat c < length qs)%nat) (gate_controls g)).
  { apply Forall_forall. intros c Hin.
    apply list_elem_of_In in Hin. rewrite forallb_forall in Hc.
    apply Hc in Hin. by apply Nat.ltb_lt in Hin. }
  assert (Hts : Forall (fun c => (N.to_nat c < length qs)%nat) (gate_targets g)).
  { apply Forall_forall. intros c Hin.
    apply list_elem_of_In in Hin. rewrite forallb_forall in Ht.
    apply Ht in Hin. by apply Nat.ltb_lt in Hin. }
  destruct (rename_negates _ σ ρ Hts Hag) as [Ha Ho].
  unfold apply_gate, rename_gate. cbn [gate_kind gate_controls gate_targets].
  rewrite (rename_controls _ σ ρ Hcs Hag).
  destruct (gate_kind g); [done| |]; by destruct (forallb ρ (gate_controls g)).
Qed.

Lemma rename_runs G : forall σ ρ,
  forallb (gate_within (length qs)) G = true -> agree qs σ ρ ->
  agree qs (run_gates (map (rename_gate (place qs)) G) σ) (run_gates G ρ)
  /\ (forall q, q ∉ qs -> run_gates (map (rename_gate (place qs)) G) σ q = σ q).
Proof.
  induction G as [|g G IH]; intros σ ρ HG Hag; [done|].
  cbn [forallb] in HG. apply andb_true_iff in HG as [Hg HG].
  destruct (rename_apply g σ ρ Hg Hag) as [Ha Ho].
  destruct (IH _ _ HG Ha) as [IHa IHo]. cbn [map]. split.
  - exact IHa.
  - intros q Hq. unfold run_gates in *. cbn [foldl]. by rewrite IHo, Ho.
Qed.

Lemma agree_values σ : agree qs σ (values_at (map σ qs)).
Proof.
  intros i Hi. unfold place, values_at.
  rewrite (nth_indep _ false (σ 0)) by (by rewrite length_map).
  by rewrite map_nth.
Qed.

End Rename.

Lemma all_values_complete bs : bs ∈ all_values (length bs).
Proof.
  induction bs as [|b bs IH]; [by left|]. cbn [length all_values].
  apply elem_of_app. destruct b; [left|right]; by apply list_elem_of_fmap_2.
Qed.

(** A gate list over [length qs] wires that adds [F] onto wire [t] on every
    assignment adds [F] of the values at [qs] onto the qubit of wire [t],
    once its wires are renamed to the distinct qubits [qs]. *)
Lemma adds_by_table qs G t F :
  NoDup qs ->
  forallb (gate_within (length qs)) G = true ->
  (N.to_nat t < length qs)%nat ->
  adds_on_table (length qs) G t F = true ->
  adds_onto (map (rename_gate (place qs)) G) (place qs t)
            (fun σ => F (map σ qs)).
Proof.
  intros Hnd HG Ht Htab σ q.
  destruct (rename_runs qs Hnd G σ _ HG (agree_values qs σ)) as [Ha Ho].
  pose proof (agree_values qs σ) as Hv.
  destruct (decide (q ∈ qs)) as [Hq|Hq].
  - destruct (in_place qs q Hq) as (i & Hi & <-).
    rewrite (Ha i Hi), (Hv i Hi), (Hv t Ht).
    unfold adds_on_table in Htab. rewrite forallb_forall in Htab.
    specialize (Htab (map σ qs)). rewrite forallb_forall in Htab.
    specialize (Htab ltac:(apply list_elem_of_In;
      rewrite <- (length_map σ qs) at 1; apply all_values_complete) i).
    assert (Hin : In i (map N.of_nat (seq 0 (length qs)))).
    { apply in_map_iff. exists (N.to_nat i). split; [apply N2Nat.id|].
      apply in_seq. lia. }
    apply Htab, eqb_prop in Hin. rewrite Hin.
    destruct (N.eqb_spec i t) as [Heq|Hne].
    + subst i. by rewrite N.eqb_refl.
    + destruct (N.eqb_spec (place qs i) (place qs t)) as [E|_]; [|done].
      by apply place_inj in E.
  - rewrite (Ho q Hq).
    destruct (N.eqb_spec q (place qs t)) as [->|_]; [|done].
    by apply place_in in Ht.
Qed.

Lemma distinct3 (c1 c2 c3 : qubit) :
  NoDup [c1; c2; c3] -> c1 <> c2 /\ c1 <> c3 /\ c2 <> c3.
Proof.
  intros Hnd. repeat setoid_rewrite NoDup_cons in Hnd.
  repeat setoid_rewrite not_elem_of_cons in Hnd. tauto.
Qed.

Lemma distinct4 (c1 c2 c3 t : qubit) :
  NoDup [c1; c2; c3; t] ->
  c1 <> c2 /\ c1 <> c3 /\ c1 <> t /\ c2 <> c3 /\ c2 <> t /\ c3 <> t.
Proof.
  intros Hnd. repeat setoid_rewrite NoDup_cons in Hnd.
  repeat setoid_rewrite not_elem_of_cons in Hnd. tauto.
Qed.

Ltac emits_gadget s :=
  destruct s as [[? ?] ? ? ? ?];
  unfold emit, when, add_gate, cerr_put, mbind, M_bind, mret, M_ret; simpl;
  rewrite <- ?app_assoc, ?app_nil_r; reflexivity.

Lemma emits_add_gate g : emits (add_gate g) [g].
Proof. intros [[nq gs] q fr ra ce]. unfold add_gate, emit; simpl. by rewrite app_nil_r. Qed.

Lemma emits_when_x b q : emits (when b (add_gate (X q))) (flip b q).
Proof.
  destruct b; [apply emits_add_gate|].
  intros s. simpl. unfold mret, M_ret. by rewrite emit_nil.
Qed.

Lemma emits_bind (m k : M unit) G1 G2 :
  emits m G1 -> emits k G2 -> emits (m ;; k) (G1 ++ G2).
Proof.
  intros Hm Hk s. unfold mbind, M_bind. rewrite Hm, Hk.
  by rewrite emit_emit.
Qed.

Lemma emits_eq (m : M unit) G G' : emits m G -> G = G' -> emits m G'.
Proof. by intros H <-. Qed.

Ltac solve_emits :=
  eapply emits_eq;
  [ repeat (eapply emits_bind; [first [apply emits_when_x|apply emits_add_gate]|]);
    first [apply emits_when_x|apply emits_add_gate]
  | reflexivity ].

(** *** The gadgets *)

Lemma compute_and_emits c1 c2 p1 p2 t s :
  compute_and c1 c2 p1 p2 t s = Some (tt, emit s (and_gadget c1 c2 p1 p2 t) []).
Proof. revert s. change (emits (compute_and c1 c2 p1 p2 t) (and_gadget c1 c2 p1 p2 t)).
  unfold compute_and. solve_emits. Qed.

Lemma and_gadget_adds c1 c2 p1 p2 t :
  NoDup [c1; c2; t] ->
  adds_onto (and_gadget c1 c2 p1 p2 t) t
            (fun σ => xorb (σ c1) p1 && xorb (σ c2) p2).
Proof.
  intros Hnd.
  destruct p1, p2;
    match goal with
    | |- adds_onto (and_gadget _ _ ?p ?q _) _ _ =>
        exact (adds_by_table [c1; c2; t] (and_gadget 0 1 p q 2) 2
                 (fun bs => xorb (nth 0 bs false) p && xorb (nth 1 bs false) q)
                 Hnd eq_refl ltac:(simpl; lia) ltac:(vm_compute; reflexivity))
    end.
Qed.

Lemma compute_or_emits c1 c2 p1 p2 t s :
  compute_or c1 c2 p1 p2 t s = Some (tt, emit s (or_gadget c1 c2 p1 p2 t) []).
Proof. revert s. change (emits (compute_or c1 c2 p1 p2 t) (or_gadget c1 c2 p1 p2 t)).
  unfold compute_or. solve_emits. Qed.

Lemma or_gadget_adds c1 c2 p1 p2 t :
  NoDup [c1; c2; t] ->
  adds_onto (or_gadget c1 c2 p1 p2 t) t
            (fun σ => xorb (σ c1) p1 || xorb (σ c2) p2).
Proof.
  intros Hnd.
  destruct p1, p2;
    match goal with
    | |- adds_onto (or_gadget _ _ ?p ?q _) _ _ =>
        exact (adds_by_table [c1; c2; t] (or_gadget 0 1 p q 2) 2
                 (fun bs => xorb (nth 0 bs false) p || xorb (nth 1 bs false) q)
                 Hnd eq_refl ltac:(simpl; lia) ltac:(vm_compute; reflexivity))
    end.
Qed.

Lemma compute_maj_emits c1 c2 c3 p1 p2 p3 t s :
  compute_maj c1 c2 c3 p1 p2 p3 t s
  = Some (tt, emit s (maj_gadget c1 c2 c3 p1 p2 p3 t) []).
Proof.
  revert s.
  change (emits (compute_maj c1 c2 c3 p1 p2 p3 t) (maj_gadget c1 c2 c3 p1 p2 p3 t)).
  unfold compute_maj. solve_emits.
Qed.

Lemma maj_gadget_adds c1 c2 c3 p1 p2 p3 t :
  NoDup [c1; c2; c3; t] ->
  adds_onto (maj_gadget c1 c2 c3 p1 p2 p3 t) t
            (fun σ => maj (xorb (σ c1) p1) (xorb (σ c2) p2) (xorb (σ c3) p3)).
Proof.
  intros Hnd.
  destruct p1, p2, p3;
    match goal with
    | |- adds_onto (maj_gadget _ _ _ ?p ?q ?r _) _ _ =>
        exact (adds_by_table [c1; c2; c3; t] (maj_gadget 0 1 2 p q r 3) 3
                 (fun bs => maj (xorb (nth 0 bs false) p)
                                (xorb (nth 1 bs false) q)
                                (xorb (nth 2 bs false) r))
                 Hnd eq_refl ltac:(simpl; lia) ltac:(vm_compute; reflexivity))
    end.
Qed.

Lemma compute_xor_emits c1 c2 inv t s :
  compute_xor c1 c2 inv t s = Some (tt, emit s (xor_gadget c1 c2 inv t) []).
Proof. revert s. change (emits (compute_xor c1 c2 inv t) (xor_gadget c1 c2 inv t)).
  unfold compute_xor. solve_emits. Qed.

Lemma compute_xor3_emits c1 c2 c3 inv t s :
  compute_xor3 c1 c2 c3 inv t s = Some (tt, emit s (xor3_gadget c1 c2 c3 inv t) []).
Proof.
  revert s. change (emits (compute_xor3 c1 c2 c3 inv t) (xor3_gadget c1 c2 c3 inv t)).
  unfold compute_xor3. solve_emits.
Qed.

Lemma parity_gates_add (cs : list qubit) (t : qubit) :
  t ∉ cs ->
  adds_onto (map (fun c => CX c t) cs) t (fun σ => foldr xorb false (map σ cs)).
Proof.
  induction cs as [|c cs IH]; intros Ht σ q.
  - simpl. destruct (N.eqb_spec q t) as [->|_]; [by destruct (σ t)|done].
  - apply not_elem_of_cons in Ht as [Hc Ht].
    cbn [map]. change (run_gates (CX c t :: map (fun c => CX c t) cs) σ q)
      with (run_gates (map (fun c => CX c t) cs) (apply_gate (CX c t) σ) q).
    rewrite (IH Ht).
    assert (Hmap : map (apply_gate (CX c t) σ) cs = map σ cs).
    { apply map_ext_in. intros x Hx. unfold apply_gate, CX; simpl. unfold negate.
      assert (x <> t) as Hxt by (intros ->; by apply Ht, list_elem_of_In).
      apply N.eqb_neq in Hxt. destruct (σ c); simpl; [by rewrite Hxt|done]. }
    rewrite Hmap. unfold apply_gate, CX; simpl. unfold negate.
    destruct (N.eqb_spec q t) as [->|Hq].
    + destruct (σ c); simpl; rewrite ?N.eqb_refl;
        destruct (σ t), (foldr xorb false (map σ cs)); reflexivity.
    + apply N.eqb_neq in Hq. destruct (σ c); simpl; [by rewrite Hq|done].
Qed.

Lemma flip_adds G t f inv :
  adds_onto G t f -> adds_onto (G ++ flip inv t) t (fun σ => xorb (f σ) inv).
Proof.
  intros HG σ q. rewrite run_gates_app. destruct inv; simpl.
  - unfold apply_gate, X; simpl. unfold negate. rewrite !HG.
    destruct (q =? t); [|done]. by destruct (σ t), (f σ).
  - rewrite HG. destruct (q =? t); [|done]. by destruct (σ t), (f σ).
Qed.

(** X16: on basis states, with the two controls and the target on three
    different qubits, the gates of [compute_and] add the AND of the two
    fan-in literals onto the target and those of [compute_or] their OR; every
    other qubit is as before, and emitting the gates a second time restores
    the state. *)
Theorem and_or_add_their_function c1 c2 p1 p2 t s :
  NoDup [c1; c2; t] ->
  (exists G,
     compute_and c1 c2 p1 p2 t s = Some (tt, emit s G [])
     /\ adds_onto G t (fun σ => xorb (σ c1) p1 && xorb (σ c2) p2)
     /\ (forall σ q, run_gates (G ++ G) σ q = σ q))
  /\ (exists G,
        compute_or c1 c2 p1 p2 t s = Some (tt, emit s G [])
        /\ adds_onto G t (fun σ => xorb (σ c1) p1 || xorb (σ c2) p2)
        /\ (forall σ q, run_gates (G ++ G) σ q = σ q)).
Proof.
  intros Hnd. destruct (distinct3 _ _ _ Hnd) as (H12 & H1t & H2t). split.
  - exists (and_gadget c1 c2 p1 p2 t). split; [apply compute_and_emits|].
    pose proof (and_gadget_adds c1 c2 p1 p2 t Hnd) as HG.
    split; [exact HG|]. apply (adds_onto_twice _ _ _ HG).
    intros σ σ' H. by rewrite !H.
  - exists (or_gadget c1 c2 p1 p2 t). split; [apply compute_or_emits|].
    pose proof (or_gadget_adds c1 c2 p1 p2 t Hnd) as HG.
    split; [exact HG|]. apply (adds_onto_twice _ _ _ HG).
    intros σ σ' H. by rewrite !H.
Qed.

(** X17: on basis states, with the three controls and the target on four
    different qubits, the gates of [compute_maj] add the majority of the
    three fan-in literals onto the target: the opposite flip of control 2 is
    what makes the gadget compute the majority.  The controls are restored,
    and emitting the gates a second time restores the target. *)
Theorem maj_adds_the_majority c1 c2 c3 p1 p2 p3 t s :
  NoDup [c1; c2; c3; t] ->
  exists G,
    compute_maj c1 c2 c3 p1 p2 p3 t s = Some (tt, emit s G [])
    /\ adds_onto G t
         (fun σ => maj (xorb (σ c1) p1) (xorb (σ c2) p2) (xorb (σ c3) p3))
    /\ (forall σ q, run_gates (G ++ G) σ q = σ q).
Proof.
  intros Hnd. exists (maj_gadget c1 c2 c3 p1 p2 p3 t).
  split; [apply compute_maj_emits|].
  pose proof (maj_gadget_adds c1 c2 c3 p1 p2 p3 t Hnd) as HG.
  split; [exact HG|]. apply (adds_onto_twice _ _ _ HG).
  destruct (distinct4 _ _ _ _ Hnd) as (H12 & H13 & H1t & H23 & H2t & H3t).
  intros σ σ' H. by rewrite !H.
Qed.

(** X18: on basis states, with no control on the target's qubit, the gates
    of [compute_xor] add the XOR of the two controls and of the inversion
    flag onto the target, and those of [compute_xor3] the XOR of the three
    controls and of the flag; every other qubit is as before. *)
Theorem xor_adds_the_parity c1 c2 c3 inv t s :
  c1 <> t -> c2 <> t -> c3 <> t ->
  (exists G,
     compute_xor c1 c2 inv t s = Some (tt, emit s G [])
     /\ adds_onto G t (fun σ => xorb (xorb (σ c1) (σ c2)) inv))
  /\ (exists G,
        compute_xor3 c1 c2 c3 inv t s = Some (tt, emit s G [])
        /\ adds_onto G t (fun σ => xorb (xorb (xorb (σ c1) (σ c2)) (σ c3)) inv)).
Proof.
  intros H1 H2 H3. split.
  - exists (xor_gadget c1 c2 inv t). split; [apply compute_xor_emits|].
    apply (adds_onto_ext _ _
             (fun σ => xorb (foldr xorb false (map σ [c1; c2])) inv)).
    { intros σ. simpl. by destruct (σ c1), (σ c2), inv. }
    apply flip_adds, (parity_gates_add [c1; c2]).
    rewrite !not_elem_of_cons. split_and!; [congruence..|apply not_elem_of_nil].
  - exists (xor3_gadget c1 c2 c3 inv t). split; [apply compute_xor3_emits|].
    apply (adds_onto_ext _ _
             (fun σ => xorb (foldr xorb false (map σ [c1; c2; c3])) inv)).
    { intros σ. simpl. by destruct (σ c1), (σ c2), (σ c3), inv. }
    apply flip_adds, (parity_gates_add [c1; c2; c3]).
    rewrite !not_elem_of_cons. split_and!; [congruence..|apply not_elem_of_nil].
Qed.

(** X19: on basis states, the gates of [compute_xor_block] add the parity of
    the controls other than the target onto the target, whatever the
    controls are; every other qubit is as before. *)
Theorem xor_block_adds_the_parity controls t s :
  exists G,
    compute_xor_block controls t s = Some (tt, emit s G [])
    /\ adds_onto G t
         (fun σ => foldr xorb false
                     (map σ (List.filter (fun c => negb (c =? t)) controls))).
Proof.
  exists (xor_block_gadget controls t). split; [apply compute_xor_block_emits|].
  apply parity_gates_add. intros Hin.
  apply list_elem_of_In, filter_In in Hin as [_ Hin].
  by rewrite N.eqb_refl in Hin.
Qed.

(** X20: the in-place XOR on its regular path.  When the target is the
    qubit of one of two different controls, [compute_xor_inplace] emits no
    diagnostic and its gates leave on the target the XOR of both controls
    and of the inversion flag; with three different controls,
    [compute_xor3_inplace] leaves the XOR of the three controls and of the
    flag.  Every other qubit is as before, and emitting the gates a second
    time restores the target. *)
Theorem inplace_xor_leaves_the_parity c1 c2 c3 inv t s :
  (c1 <> c2 -> t ∈ [c1; c2] ->
   exists G,
     compute_xor_inplace c1 c2 inv t s = Some (tt, emit s G [])
     /\ (forall σ q, run_gates G σ q
           = if q =? t then xorb (xorb (σ c1) (σ c2)) inv else σ q)
     /\ (forall σ q, run_gates (G ++ G) σ q = σ q))
  /\ (NoDup [c1; c2; c3] -> t ∈ [c1; c2; c3] ->
      exists G,
        compute_xor3_inplace c1 c2 c3 inv t s = Some (tt, emit s G [])
        /\ (forall σ q, run_gates G σ q
              = if q =? t then xorb (xorb (xorb (σ c1) (σ c2)) (σ c3)) inv
                else σ q)
        /\ (forall σ q, run_gates (G ++ G) σ q = σ q)).
Proof.
  assert (Hshape : forall cs u,
    u ∉ cs ->
    let G := map (fun c => CX c u) cs ++ flip inv u in
    (forall σ q, run_gates G σ q
       = if q =? u then xorb (σ u) (xorb (foldr xorb false (map σ cs)) inv)
         else σ q)
    /\ (forall σ q, run_gates (G ++ G) σ q = σ q)).
  { intros cs u Hu G.
    pose proof (flip_adds _ _ _ inv (parity_gates_add cs u Hu)) as HG.
    split; [exact HG|]. apply (adds_onto_twice _ _ _ HG).
    intros σ σ' H. f_equal. f_equal. apply map_ext_in. intros x Hx.
    apply H. intros ->. by apply Hu, list_elem_of_In. }
  split.
  - intros H12 Ht. rewrite !elem_of_cons in Ht.
    destruct Ht as [->|[->|[]%elem_of_nil]]; unfold compute_xor_inplace.
    + destruct (Hshape [c2] c1) as [Hrun Htwice].
      { rewrite not_elem_of_cons. split; [done|apply not_elem_of_nil]. }
      cbn [map] in Hrun, Htwice.
      exists ([CX c2 c1] ++ flip inv c1). rewrite N.eqb_refl.
      split; [destruct inv; emits_gadget s|]. split; [|exact Htwice].
      intros σ q. rewrite (Hrun σ q). destruct (q =? c1); [|done].
      simpl. by destruct (σ c1), (σ c2), inv.
    + destruct (Hshape [c1] c2) as [Hrun Htwice].
      { rewrite not_elem_of_cons. split; [congruence|apply not_elem_of_nil]. }
      cbn [map] in Hrun, Htwice.
      exists ([CX c1 c2] ++ flip inv c2).
      assert (Hne : (c1 =? c2) = false) by (by apply N.eqb_neq).
      rewrite Hne, N.eqb_refl.
      split; [destruct inv; emits_gadget s|]. split; [|exact Htwice].
      intros σ q. rewrite (Hrun σ q). destruct (q =? c2); [|done].
      simpl. by destruct (σ c1), (σ c2), inv.
  - intros Hnd Ht.
    destruct (distinct3 _ _ _ Hnd) as (H12 & H13 & H23). clear Hnd.
    rewrite !elem_of_cons in Ht.
    destruct Ht as [->|[->|[->|[]%elem_of_nil]]]; unfold compute_xor3_inplace.
    + destruct (Hshape [c2; c3] c1) as [Hrun Htwice].
      { rewrite !not_elem_of_cons. split_and!; [done..|apply not_elem_of_nil]. }
      cbn [map] in Hrun, Htwice.
      exists ([CX c2 c1; CX c3 c1] ++ flip inv c1). rewrite N.eqb_refl.
      split; [destruct inv; emits_gadget s|]. split; [|exact Htwice].
      intros σ q. rewrite (Hrun σ q). destruct (q =? c1); [|done].
      simpl. by destruct (σ c1), (σ c2), (σ c3), inv.
    + destruct (Hshape [c1; c3] c2) as [Hrun Htwice].
      { rewrite !not_elem_of_cons.
        split_and!; [congruence..|apply not_elem_of_nil]. }
      cbn [map] in Hrun, Htwice.
      exists ([CX c1 c2; CX c3 c2] ++ flip inv c2).
      assert (Hne : (c1 =? c2) = false) by (by apply N.eqb_neq).
      rewrite Hne, N.eqb_refl.
      split; [destruct inv; emits_gadget s|]. split; [|exact Htwice].
      intros σ q. rewrite (Hrun σ q). destruct (q =? c2); [|done].
      simpl. by destruct (σ c1), (σ c2), (σ c3), inv.
    + destruct (Hshape [c1; c2] c3) as [Hrun Htwice].
      { rewrite !not_elem_of_cons.
        split_and!; [congruence..|apply not_elem_of_nil]. }
      cbn [map] in Hrun, Htwice.
      exists ([CX c1 c3; CX c2 c3] ++ flip inv c3).
      assert (Hne : (c1 =? c3) = false) by (by apply N.eqb_neq).
      assert (Hne' : (c2 =? c3) = false) by (by apply N.eqb_neq).
      rewrite Hne, Hne', N.eqb_refl.
      split; [destruct inv; emits_gadget s|]. split; [|exact Htwice].
      intros σ q. rewrite (Hrun σ q). destruct (q =? c3); [|done].
      simpl. by destruct (σ c1), (σ c2), (σ c3), inv.
Qed.

(** ** Who holds an ancilla when the Bennett stream ends *)

Lemma track_uncomputes us : forall owners n,
  n ∈ foldl track owners (map (fun m => (m, uncompute_action)) us)
  <-> n ∈ owners /\ n ∉ us.
Proof.
  induction us as [|u us IH]; intros owners n; cbn [map foldl].
  - split; [intros H; split; [done|apply not_elem_of_nil]|by intros [H _]].
  - rewrite IH. cbn [track]. rewrite list_elem_of_filter, not_elem_of_cons.
    tauto.
Qed.

(** X21: when the topological view lists every gate once and no gate is a
    primary input or a constant put on a qubit, the Bennett stream respects
    the pairing (a gate is computed only while it holds no qubit and
    uncomputed only while it holds one), and the gates still holding an
    ancilla when the stream ends are exactly the primary-output drivers. *)
Theorem bennett_leaves_the_drivers ntk :
  let gs := gate_nodes ntk (topo_foreach_node ntk) in
  NoDup gs -> (forall n, n ∈ gs -> n ∉ prepared_nodes ntk) ->
  well_paired (prepared_nodes ntk) [] (Bennett.bennett_mapping_strategy ntk)
  = true
  /\ (forall n, n ∈ owners_after (Bennett.bennett_mapping_strategy ntk)
                <-> n ∈ gs /\ is_driver ntk n = true).
Proof.
  intros gs Hnd Hfixed.
  rewrite bennett_assemble. unfold assemble, owners_after.
  rewrite out_of_place_opening, out_of_place_closing, reverse_map.
  fold gs. rewrite well_paired_app, foldl_app.
  destruct (well_paired_computes (prepared_nodes ntk) gs [] Hnd) as [Hw Ht].
  { intros n Hn. split; [by apply Hfixed|]. apply not_elem_of_nil. }
  rewrite Hw, Ht, app_nil_r. split.
  - simpl. apply well_paired_uncomputes.
    + rewrite reverse_Permutation. apply NoDup_ListNoDup, List.NoDup_filter.
      by apply NoDup_ListNoDup.
    + intros n Hn. rewrite elem_of_reverse in Hn. rewrite elem_of_reverse.
      apply list_elem_of_In, filter_In in Hn as [Hn _]. by apply list_elem_of_In.
  - intros n. rewrite track_uncomputes, !elem_of_reverse.
    rewrite (list_elem_of_In (List.filter _ gs) n), filter_In, <- list_elem_of_In.
    destruct (is_driver ntk n); simpl; intuition congruence.
Qed.

(** X22: an ancilla freed by an [Uncompute] is the one the next [Compute]
    takes: when the [Uncompute] of [n] is followed by the [Compute] of [m],
    gate [m] sits on the qubit that [n] had, no qubit is added,
    [required_ancillae] does not move and the pool is as before. *)
Theorem uncomputed_qubit_is_reused ntk stg_fn n m s s' :
  (exec_step ntk stg_fn (n, uncompute_action) ;;
   exec_step ntk stg_fn (m, compute_action)) s = Some (tt, s') ->
  node_to_qubit s' m = node_to_qubit s n
  /\ num_qubits (qnet s') = num_qubits (qnet s)
  /\ st_required_ancillae s' = st_required_ancillae s
  /\ free_ancillae s' = free_ancillae s.
Proof.
  intros E. simpl in E.
  unfold mbind, M_bind, mapped, map_node, release_ancilla, request_ancilla in E.
  destruct (compute_node ntk stg_fn n (node_to_qubit s n) s)
    as [[[] s1]|] eqn:E1; [|done].
  destruct (local_frame _ _ _ _ _ (compute_node_local ntk stg_fn n _) E1)
    as (G & D & ->).
  simpl in E.
  destruct (local_frame _ _ _ _ _ (compute_node_local ntk stg_fn m _) E)
    as (G' & D' & ->).
  simpl. by rewrite N.eqb_refl.
Qed.

(** ** The further properties on the example networks *)

(** X2 on [and_chain]: gate 4 is [AND(3, !1)]. *)
Lemma and_expansion_and_chain :
  compute_node and_chain no_stg 4 9 identity_state
  = Some (tt, emit identity_state [X 1; MCX [3; 1] [9]; X 1] []).
Proof.
  exact (and_expansion and_chain no_stg 4 (Signal 3 false) (Signal 1 true) 9
           identity_state eq_refl eq_refl eq_refl eq_refl).
Defined.

(** X3 on [xag]: gate 3 is [OR(!1, 2)]. *)
Lemma or_expansion_xag :
  compute_node xag no_stg 3 9 identity_state
  = Some (tt, emit identity_state [X 2; MCX [1; 2] [9]; X 9; X 2] []).
Proof.
  exact (or_expansion xag no_stg 3 (Signal 1 true) (Signal 2 false) 9
           identity_state eq_refl eq_refl eq_refl eq_refl).
Defined.

(** X4 on [xag], whose gate 4 is [XOR(3, !1)], and on [xmg], whose gate 7 is
    [XOR3(4, 5, 6)]. *)
Lemma xor_expansion_xag_xmg :
  compute_node xag no_stg 4 9 identity_state
  = Some (tt, emit identity_state [CX 3 9; CX 1 9; X 9] [])
  /\ compute_node xmg no_stg 7 9 identity_state
     = Some (tt, emit identity_state [CX 4 9; CX 5 9; CX 6 9] []).
Proof.
  split.
  - exact (proj1 (xor_expansion xag no_stg 4 (Signal 3 false) (Signal 1 true)
                    (Signal 0 false) 9 identity_state eq_refl eq_refl eq_refl)
                 eq_refl eq_refl).
  - exact (proj2 (xor_expansion xmg no_stg 7 (Signal 4 false) (Signal 5 false)
                    (Signal 6 false) 9 identity_state eq_refl eq_refl eq_refl)
                 eq_refl eq_refl eq_refl).
Defined.

(** X5 on [klut]: node 5 goes to the callback, node 6 is a parity and gives
    the XOR block. *)
Lemma function_expansion_klut :
  compute_node klut mcx_stg 5 9 identity_state
  = Some (tt, emit identity_state [MCX [2; 3] [9]] [])
  /\ compute_node klut mcx_stg 6 9 identity_state
     = Some (tt, emit identity_state [CX 5 9; CX 4 9; CX 2 9] []).
Proof.
  split.
  - exact (function_expansion klut mcx_stg 5 9 identity_state eq_refl eq_refl).
  - exact (function_expansion klut mcx_stg 6 9 identity_state eq_refl eq_refl).
Defined.

(** X6 on [klut_complemented]: node 5 has a complemented fan-in and stops
    both expanders. *)
Lemma expanders_fail_on_klut_complemented :
  compute_node klut_complemented mcx_stg 5 9 identity_state = None
  /\ compute_node_inplace klut_complemented 5 9 identity_state = None.
Proof.
  destruct (expanders_fail_on_complemented_fanins klut_complemented mcx_stg 5 9
              identity_state) as [[_ H1] [_ H2]].
  split; [exact (H1 eq_refl)|exact (H2 eq_refl)].
Defined.

(** X7 with controls 0, 1 and 2 and target 9. *)
Lemma xor_block_skips_target_example :
  xor_block_gadget [0; 1; 2] 9 = map (fun c => CX c 9) [0; 1; 2].
Proof.
  apply (xor_block_skips_target [0; 1; 2] 9 start).
  intros Hin. apply list_elem_of_In in Hin. vm_compute in Hin.
  intuition discriminate.
Defined.

(** X9 on the Bennett run of [and_chain]. *)
Lemma required_ancillae_counts_added_qubits_and_chain :
  let steps := Bennett.bennett_mapping_strategy and_chain in
  let s := state_of (prepare and_chain start) in
  let s' := state_of (drive and_chain no_stg steps s) in
  exists k : nat,
    (k <= length (List.filter is_compute_step steps))%nat
    /\ num_qubits (qnet s') = num_qubits (qnet s) + N.of_nat k
    /\ wrap32 (st_required_ancillae s')
       = wrap32 (st_required_ancillae s + N.of_nat k).
Proof.
  intros steps s s'.
  apply (required_ancillae_counts_added_qubits and_chain no_stg steps s s').
  vm_compute. reflexivity.
Defined.

(** X10 on [xmg]: gate 6 computed in place on the qubit of input 3. *)
Lemma inplace_steps_keep_pool_xmg :
  let s' := state_of (exec_step xmg no_stg (6, compute_inplace_action 3)
                                identity_state) in
  free_ancillae s' = free_ancillae identity_state
  /\ st_required_ancillae s' = st_required_ancillae identity_state
  /\ num_qubits (qnet s') = num_qubits (qnet identity_state)
  /\ node_to_qubit s' = (fun m => if m =? 6 then 3 else m)
  /\ (forall m, m <> 6 -> node_to_qubit s' m = node_to_qubit identity_state m).
Proof.
  intros s'.
  exact (inplace_steps_keep_pool xmg no_stg 6 (compute_inplace_action 3)
           identity_state s' 3 (fun m => if m =? 6 then 3 else m)
           eq_refl eq_refl).
Defined.

(** X11 on [xmg]: the inputs 1, 2 and 3 and the constant 0 get the qubits 0
    to 3. *)
Lemma prepare_layout_xmg :
  exists s',
    prepare xmg start = Some (tt, s')
    /\ num_qubits (qnet s')
       = num_qubits (qnet start) + N.of_nat (length (prepared_nodes xmg))
    /\ (forall i n, prepared_nodes xmg !! i = Some n ->
          node_to_qubit s' n = num_qubits (qnet start) + N.of_nat i)
    /\ (forall n, n ∉ prepared_nodes xmg -> node_to_qubit s' n = node_to_qubit start n)
    /\ free_ancillae s' = free_ancillae start
    /\ st_required_ancillae s' = st_required_ancillae start.
Proof.
  apply (prepare_layout xmg start).
  vm_compute. repeat constructor; rewrite ?elem_of_cons, ?elem_of_nil; lia.
Defined.

(** X14 on [and_chain]: the step on the driver 5 is its [Compute]. *)
Lemma drivers_are_only_computed_and_chain :
  fst (5, compute_action) ∈ gate_nodes and_chain (topo_foreach_node and_chain)
  /\ (is_driver and_chain (fst (5, compute_action)) = true ->
      snd (5, compute_action) = compute_action).
Proof.
  apply (drivers_are_only_computed and_chain (5, compute_action)).
  apply list_elem_of_In. vm_compute. tauto.
Defined.

(** X15 on [and_chain], which has no node functions. *)
Lemma synthesis_returns_on_and_chain :
  has_node_function and_chain = false
  /\ logic_network_synthesis (H := Bennett.strategy) (QNet 0 []) and_chain
                             no_stg default_ps <> None.
Proof.
  split; [reflexivity|].
  apply (synthesis_stops_only_on_assertion _ Bennett.strategy (QNet 0 [])
           and_chain no_stg default_ps).
  reflexivity.
Defined.

(** X16 with the controls on qubits 0 and 1 and the target on qubit 2. *)
Lemma and_or_add_their_function_example :
  (exists G,
     compute_and 0 1 true false 2 start = Some (tt, emit start G [])
     /\ adds_onto G 2 (fun σ => xorb (σ 0) true && xorb (σ 1) false)
     /\ (forall σ q, run_gates (G ++ G) σ q = σ q))
  /\ (exists G,
        compute_or 0 1 true false 2 start = Some (tt, emit start G [])
        /\ adds_onto G 2 (fun σ => xorb (σ 0) true || xorb (σ 1) false)
        /\ (forall σ q, run_gates (G ++ G) σ q = σ q)).
Proof.
  apply (and_or_add_their_function 0 1 true false 2 start).
  repeat constructor; rewrite ?elem_of_cons, ?elem_of_nil; lia.
Defined.

(** X17 with the controls on qubits 0, 1 and 2 and the target on qubit 3. *)
Lemma maj_adds_the_majority_example :
  exists G,
    compute_maj 0 1 2 false true false 3 start = Some (tt, emit start G [])
    /\ adds_onto G 3
         (fun σ => maj (xorb (σ 0) false) (xorb (σ 1) true) (xorb (σ 2) false))
    /\ (forall σ q, run_gates (G ++ G) σ q = σ q).
Proof.
  apply (maj_adds_the_majority 0 1 2 false true false 3 start).
  repeat constructor; rewrite ?elem_of_cons, ?elem_of_nil; lia.
Defined.

(** X18 with the controls on qubits 0, 1 and 2 and the target on qubit 3. *)
Lemma xor_adds_the_parity_example :
  (exists G,
     compute_xor 0 1 true 3 start = Some (tt, emit start G [])
     /\ adds_onto G 3 (fun σ => xorb (xorb (σ 0) (σ 1)) true))
  /\ (exists G,
        compute_xor3 0 1 2 true 3 start = Some (tt, emit start G [])
        /\ adds_onto G 3 (fun σ => xorb (xorb (xorb (σ 0) (σ 1)) (σ 2)) true)).
Proof.
  apply (xor_adds_the_parity 0 1 2 true 3 start); lia.
Defined.

(** X20 with the controls on qubits 0, 1 and 2 and qubit 1 as the target. *)
Lemma inplace_xor_leaves_the_parity_example :
  (exists G,
     compute_xor_inplace 0 1 true 1 start = Some (tt, emit start G [])
     /\ (forall σ q, run_gates G σ q
           = if q =? 1 then xorb (xorb (σ 0) (σ 1)) true else σ q)
     /\ (forall σ q, run_gates (G ++ G) σ q = σ q))
  /\ (exists G,
        compute_xor3_inplace 0 1 2 true 1 start = Some (tt, emit start G [])
        /\ (forall σ q, run_gates G σ q
              = if q =? 1 then xorb (xorb (xorb (σ 0) (σ 1)) (σ 2)) true
                else σ q)
        /\ (forall σ q, run_gates (G ++ G) σ q = σ q)).
Proof.
  destruct (inplace_xor_leaves_the_parity 0 1 2 true 1 start) as [H2 H3].
  split.
  - apply H2; [lia|]. rewrite !elem_of_cons. tauto.
  - apply H3.
    + repeat constructor; rewrite ?elem_of_cons, ?elem_of_nil; lia.
    + rewrite !elem_of_cons. tauto.
Defined.

(** X21 on [and_chain]: the stream is paired and leaves gate 5, the driver,
    on its ancilla. *)
Lemma bennett_leaves_the_drivers_and_chain :
  well_paired (prepared_nodes and_chain) []
              (Bennett.bennett_mapping_strategy and_chain) = true
  /\ (forall n, n ∈ owners_after (Bennett.bennett_mapping_strategy and_chain)
                <-> n ∈ gate_nodes and_chain (topo_foreach_node and_chain)
                    /\ is_driver and_chain n = true).
Proof.
  apply (bennett_leaves_the_drivers and_chain).
  - vm_compute. repeat constructor; rewrite ?elem_of_cons, ?elem_of_nil; lia.
  - intros n Hn Hp.
    apply list_elem_of_In in Hn. apply list_elem_of_In in Hp.
    vm_compute in Hn. vm_compute in Hp. intuition congruence.
Defined.

(** X22 on [and_chain]: gate 4 takes over the qubit of gate 3. *)
Lemma uncomputed_qubit_is_reused_and_chain :
  let s' := state_of ((exec_step and_chain no_stg (3, uncompute_action) ;;
                       exec_step and_chain no_stg (4, compute_action))
                        identity_state) in
  node_to_qubit s' 4 = node_to_qubit identity_state 3
  /\ num_qubits (qnet s') = num_qubits (qnet identity_state)
  /\ st_required_ancillae s' = st_required_ancillae identity_state
  /\ free_ancillae s' = free_ancillae identity_state.
Proof.
  intros s'.
  exact (uncomputed_qubit_is_reused and_chain no_stg 3 4 identity_state s'
           eq_refl).
Defined.
